(** * AnalisadorSintatico: the tokenizer and the recursive-descent parser

    A shallow embedding of [lexer.py] ([AnalisadorLexico]) and of
    [an_parser.py] ([Nó], [Analisador]), and the properties of the
    front-end that were checked against it.

    Source text is modelled as a [string] of 8-bit characters, read as the
    code points 0..255; the character classes of the [re] module
    ([\w], [\d], [\s], [.]) are given on that range as Python 3 defines
    them for [str] patterns. *)

From Stdlib Require Import Bool Arith List Ascii String Lia.
Import ListNotations.

Local Open Scope string_scope.
Local Open Scope list_scope.
Local Open Scope nat_scope.

(* ================================================================== *)
(** * Regular expressions of the token table                           *)
(* ================================================================== *)

Module Regex.

(** ** Character classes *)

Definition code (c : ascii) : nat := nat_of_ascii c.

Definition between (lo hi : nat) (c : ascii) : bool :=
  (lo <=? code c) && (code c <=? hi).

Definition one_of (cs : list ascii) (c : ascii) : bool :=
  existsb (Ascii.eqb c) cs.

(** [[a-z]], [[A-Z]], [[0-9]] *)
Definition is_lower : ascii -> bool := between 97 122.
Definition is_upper : ascii -> bool := between 65 90.

(** [\d]: the decimal digits; below 256 these are [0-9] only. *)
Definition is_digit : ascii -> bool := between 48 57.

(** [[a-zA-Z_]] and [[a-zA-Z0-9_]] *)
Definition ident_start (c : ascii) : bool :=
  is_lower c || is_upper c || Ascii.eqb c "_".
Definition ident_char (c : ascii) : bool :=
  ident_start c || is_digit c.

(** [\w], which also decides [\b]: alphanumeric or underscore.  Above 127
    the alphanumeric code points are ª ² ³ µ ¹ º ¼ ½ ¾, À..Ö, Ø..ö, ø..ÿ. *)
Definition is_word (c : ascii) : bool :=
  ident_char c
  || existsb (Nat.eqb (code c)) [170; 178; 179; 181; 185; 186; 188; 189; 190]
  || between 192 214 c || between 216 246 c || between 248 255 c.

(** [\s]: tab..carriage return, the separators 28..31, space, NEL, NBSP. *)
Definition is_space (c : ascii) : bool :=
  between 9 13 c || between 28 31 c
  || existsb (Nat.eqb (code c)) [32; 133; 160].

(** [.] without DOTALL: anything but a line feed. *)
Definition not_newline (c : ascii) : bool := negb (code c =? 10).

(** ** Syntax *)

Inductive regex : Type :=
| Cls (p : ascii -> bool)        (* one character of a class *)
| Star (p : ascii -> bool)       (* greedy   [p*]  *)
| StarLazy (p : ascii -> bool)   (* reluctant [p*?] *)
| Opt (r : regex)                (* greedy   [r?]  *)
| Seq (r1 r2 : regex)
| Alt (r1 r2 : regex)
| WordB                          (* [\b] *)
| Eps.

Definition Chr (c : ascii) : regex := Cls (Ascii.eqb c).
Definition Plus (p : ascii -> bool) : regex := Seq (Cls p) (Star p).

Fixpoint Lit (s : string) : regex :=
  match s with
  | EmptyString => Eps
  | String c s' => Seq (Chr c) (Lit s')
  end.

(** ** Backtracking matcher

    A position is the character just before the scan point (needed by
    [\b]) and the text that remains.  [run r q] lists the positions at
    which a match of [r] started at [q] can end, in the order in which a
    backtracking engine tries them: the head of the list is the match
    the [re] module reports. *)

Definition pos : Type := option ascii * list ascii.

Definition word_opt (o : option ascii) : bool :=
  match o with Some c => is_word c | None => false end.

Definition at_boundary (q : pos) : bool :=
  xorb (word_opt (fst q)) (word_opt (hd_error (snd q))).

Fixpoint star_greedy (p : ascii -> bool) (prev : option ascii)
    (s : list ascii) : list pos :=
  match s with
  | c :: s' =>
      if p c then star_greedy p (Some c) s' ++ [(prev, s)] else [(prev, s)]
  | [] => [(prev, s)]
  end.

Fixpoint star_lazy (p : ascii -> bool) (prev : option ascii)
    (s : list ascii) : list pos :=
  match s with
  | c :: s' =>
      if p c then (prev, s) :: star_lazy p (Some c) s' else [(prev, s)]
  | [] => [(prev, s)]
  end.

Fixpoint run (r : regex) (q : pos) : list pos :=
  match r with
  | Cls p =>
      match snd q with
      | c :: s' => if p c then [(Some c, s')] else []
      | [] => []
      end
  | Star p => star_greedy p (fst q) (snd q)
  | StarLazy p => star_lazy p (fst q) (snd q)
  | Opt r1 => run r1 q ++ [q]
  | Seq r1 r2 => flat_map (run r2) (run r1 q)
  | Alt r1 r2 => run r1 q ++ run r2 q
  | WordB => if at_boundary q then [q] else []
  | Eps => [q]
  end.

(** ** Notions for reasoning about matches *)

(** [r] cannot match the empty text. *)
Fixpoint nonempty (r : regex) : bool :=
  match r with
  | Cls _ => true
  | Star _ | StarLazy _ | Opt _ | WordB | Eps => false
  | Seq r1 r2 => nonempty r1 || nonempty r2
  | Alt r1 r2 => nonempty r1 && nonempty r2
  end.

(** What a position leaves to read. *)
Definition resto (q : pos) : nat := List.length (snd q).

End Regex.

(* ================================================================== *)
(** * lexer.py                                                         *)
(* ================================================================== *)

(** A token is the Python tuple [(tipo_token, valor_token)]. *)
Definition token : Type := string * string.

Module Lexer.
Import Regex.

(** [\bpalavra\b] *)
Definition kw (s : string) : regex := Seq WordB (Seq (Lit s) WordB).

(** The table of [analisar_tokens], in its order. *)
Definition especificacoes_tokens : list (string * regex) :=
  [ ("PROGRAM", kw "programa");
    ("VAR", kw "var");
    ("INT", kw "int");
    ("FLOAT", kw "float");
    ("BOOL", kw "bool");
    ("IF", kw "if");
    ("ELSE", kw "else");
    ("WHILE", kw "while");
    ("PRINT", kw "print");
    ("TRUE", kw "true");
    ("FALSE", kw "false");
    ("IDENTIFIER",
       Seq WordB (Seq (Cls ident_start) (Seq (Star ident_char) WordB)));
    ("NUMBER",
       Seq WordB (Seq (Plus is_digit)
         (Seq (Opt (Seq (Chr ".") (Star is_digit))) WordB)));
    ("SEMICOLON", Chr ";");
    ("COLON", Chr ":");
    ("LBRACE", Chr "{");
    ("RBRACE", Chr "}");
    ("MULTILINE_COMMENT",
       Seq (Lit "/*") (Seq (StarLazy not_newline) (Lit "*/")));
    ("LPAREN", Chr "(");
    ("RPAREN", Chr ")");
    ("ADD_OP", Cls (one_of ["+"; "-"]%char));
    ("MUL_OP", Cls (one_of ["*"; "/"]%char));
    ("REL_OP",
       Alt (Seq (Cls (one_of ["<"; ">"]%char)) (Opt (Chr "=")))
         (Alt (Lit "==") (Lit "!=")));
    ("ASSIGN", Chr "=");
    ("WHITESPACE", Plus is_space) ].

(** The joined pattern ["(?P<n1>p1)|(?P<n2>p2)|..."] at one position: the
    first alternative with a match wins; the result is [lastgroup] and
    the length of the match. *)
Fixpoint match_at (specs : list (string * regex)) (q : pos)
    : option (string * nat) :=
  match specs with
  | [] => None
  | (nome, r) :: specs' =>
      match run r q with
      | (_, s') :: _ => Some (nome, List.length (snd q) - List.length s')
      | [] => match_at specs' q
      end
  end.

(** [re.finditer]: the matches from left to right, without overlap.  A
    position where nothing matches is passed over; [skip] counts the
    characters still covered by the match in progress. *)
Fixpoint finditer_from (specs : list (string * regex))
    (prev : option ascii) (s : list ascii) (skip : nat) : list token :=
  match s with
  | [] => []
  | c :: s' =>
      match skip with
      | S k => finditer_from specs (Some c) s' k
      | O =>
          match match_at specs (prev, s) with
          | Some (nome, len) =>
              (nome, string_of_list_ascii (firstn len s))
                :: finditer_from specs (Some c) s' (len - 1)
          | None => finditer_from specs (Some c) s' 0
          end
      end
  end.

Definition finditer (specs : list (string * regex)) (src : string)
    : list token :=
  finditer_from specs None (list_ascii_of_string src) 0.

Record AnalisadorLexico : Type := mkLexico {
  codigo_fonte : string;
  tokens : list token
}.

(** [__init__] *)
Definition init (codigo : string) : AnalisadorLexico :=
  {| codigo_fonte := codigo; tokens := [] |}.

(** One turn of the [for] loop of [analisar_tokens]. *)
Definition passo (acc : list token) (correspondencia : token) : list token :=
  if negb (String.eqb (fst correspondencia) "WHITESPACE")
  then acc ++ [correspondencia]
  else acc.

(** [analisar_tokens]: the returned list, and the object afterwards. *)
Definition analisar_tokens (self : AnalisadorLexico)
    : list token * AnalisadorLexico :=
  let toks :=
    fold_left passo (finditer especificacoes_tokens (codigo_fonte self))
      (tokens self) in
  (toks, {| codigo_fonte := codigo_fonte self; tokens := toks |}).

(** [AnalisadorLexico(src).analisar_tokens()] *)
Definition tokenize (src : string) : list token :=
  fst (analisar_tokens (init src)).

(** How a call of the tokenizer can end for its caller. *)
Inductive outcome : Type :=
| Returns (toks : list token)
| LexicalError (posicao : nat) (caractere : ascii).

(** [analisar_tokens] has no [raise] and [re.finditer] raises nothing on
    a [str]: the call returns its list. *)
Definition tokenizer (src : string) : outcome := Returns (tokenize src).

(** The scan position [i] of a text: the character before it and the
    text from it on. *)
Definition posicao (src : list ascii) (i : nat) : pos :=
  (match i with O => None | S j => nth_error src j end, skipn i src).

(** No alternative of the table matches at position [i] of [src]. *)
Definition sem_padrao (src : string) (i : nat) : Prop :=
  i < String.length src /\
  match_at especificacoes_tokens (posicao (list_ascii_of_string src) i) = None.

(** A match that the loop of [analisar_tokens] appends. *)
Definition emitido (t : token) : bool :=
  negb (String.eqb (fst t) "WHITESPACE").

(** The fragment of the end-to-end example. *)
Definition fragmento : string :=
  "var x:int; x=10; if (x == 10) { print(x); }".

End Lexer.

(* ================================================================== *)
(** * an_parser.py                                                     *)
(* ================================================================== *)

Module Parser.

(** ** The tree: class [Nó]

    [folha] is [None], a string, or for [DECL_VAR] the pair
    [(nome, tipo)].  A child can be [None]: [decl_if] stores
    [declaracoes_falsas = None] when there is no [else], and [fator]
    can fall off its [if]/[elif] chain. *)

Inductive folha_t : Type :=
| SemFolha
| FolhaStr (s : string)
| FolhaPar (nome tipo : string).

#[warnings="-register-all"]
Inductive No : Type :=
| mkNo (tipo : string) (filhos : list (option No)) (folha : folha_t).

Definition tipo_de (n : No) : string := let (t, _, _) := n in t.
Definition filhos_de (n : No) : list (option No) := let (_, f, _) := n in f.
Definition folha_de (n : No) : folha_t := let (_, _, l) := n in l.

(** ** State and control

    An [Analisador] object.  [self.tokens = tokens] binds the caller's
    list object itself, not a copy, so the field [tokens] is also what
    the caller sees in its own list from then on. *)

Record Analisador : Type := mkAnalisador {
  tokens : list token;
  token_atual : option token;
  ast : option No
}.

Inductive excecao : Type :=
| SyntaxError (inesperado : token)   (* "Token inesperado: ..." *)
| IndexError                         (* pop from empty list *)
| TypeError.                         (* 'NoneType' object is not subscriptable *)

(** The outcome of a call.  [OutOfFuel] belongs to the model only: the
    recursion and the [while] loops are bounded by a counter. *)
Inductive result (A : Type) : Type :=
| Ok (a : A)
| Raise (e : excecao)
| OutOfFuel.
Arguments Ok {A} a.
Arguments Raise {A} e.
Arguments OutOfFuel {A}.

(** A method: it reads and updates the object, and the updates made
    before an exception stay. *)
Definition M (A : Type) : Type := Analisador -> result A * Analisador.

Definition ret {A} (a : A) : M A := fun self => (Ok a, self).
Definition raise {A} (e : excecao) : M A := fun self => (Raise e, self).
Definition out_of_fuel {A} : M A := fun self => (OutOfFuel, self).

Definition bind {A B} (m : M A) (f : A -> M B) : M B :=
  fun self =>
    match m self with
    | (Ok a, self') => f a self'
    | (Raise e, self') => (Raise e, self')
    | (OutOfFuel, self') => (OutOfFuel, self')
    end.

Notation "x <- m ;; k" := (bind m (fun x => k))
  (at level 61, m at next level, right associativity).
Notation "m ;;; k" := (bind m (fun _ => k))
  (at level 61, right associativity).

(** [while cond: a = body(a)], at most [n] turns. *)
Fixpoint while_ {A} (n : nat) (cond : M bool) (body : A -> M A) (a : A)
    : M A :=
  match n with
  | O => out_of_fuel
  | S n' =>
      b <- cond ;;
      if b then a' <- body a ;; while_ n' cond body a' else ret a
  end.

(** [self.token_atual[0]] *)
Definition tipo_atual : M string :=
  fun self =>
    match token_atual self with
    | Some tok => (Ok (fst tok), self)
    | None => (Raise TypeError, self)
    end.

Definition em (k : string) (tipos : list string) : bool :=
  existsb (String.eqb k) tipos.

(** [self.token_atual[0] == tipo] and [self.token_atual[0] in (...)] *)
Definition atual_e (tipo : string) : M bool :=
  k <- tipo_atual ;; ret (String.eqb k tipo).
Definition atual_em (tipos : list string) : M bool :=
  k <- tipo_atual ;; ret (em k tipos).

(** [self.tokens.pop(0) if self.tokens else None] *)
Definition avancar (self : Analisador) : Analisador :=
  match tokens self with
  | t :: resto =>
      {| tokens := resto; token_atual := Some t; ast := ast self |}
  | [] => {| tokens := []; token_atual := None; ast := ast self |}
  end.

(** [combinar], called with one or more expected kinds *)
Definition combinar (tipos_esperados : list string) : M token :=
  fun self =>
    match token_atual self with
    | None => (Raise TypeError, self)
    | Some tok =>
        if em (fst tok) tipos_esperados
        then (Ok tok, avancar self)
        else (Raise (SyntaxError tok), self)
    end.

(** ** Expressions *)

Definition binario (esquerda direita : option No) (op : token) : option No :=
  Some (mkNo "EXPR" [esquerda; direita] (FolhaStr (snd op))).

Section Expressoes.
(** [n] bounds the loops; [expr_rec] is the call [self.expr()] made by
    [fator] on a parenthesis. *)
Variable n : nat.
Variable expr_rec : M (option No).

Definition fator_ : M (option No) :=
  k <- tipo_atual ;;
  if String.eqb k "IDENTIFIER" then
    t <- combinar ["IDENTIFIER"] ;;
    ret (Some (mkNo "IDENTIFICADOR" [] (FolhaStr (snd t))))
  else if String.eqb k "NUMBER" then
    t <- combinar ["NUMBER"] ;;
    ret (Some (mkNo "NUMERO" [] (FolhaStr (snd t))))
  else if String.eqb k "LPAREN" then
    combinar ["LPAREN"] ;;;
    e <- expr_rec ;;
    combinar ["RPAREN"] ;;;
    ret e
  else if String.eqb k "TRUE" then
    t <- combinar ["TRUE"] ;;
    ret (Some (mkNo "BOOLEANO" [] (FolhaStr (snd t))))
  else if String.eqb k "FALSE" then
    t <- combinar ["FALSE"] ;;
    ret (Some (mkNo "BOOLEANO" [] (FolhaStr (snd t))))
  else ret None.

Definition termo_ : M (option No) :=
  esquerda <- fator_ ;;
  while_ n (atual_e "MUL_OP")
    (fun esquerda =>
       op <- combinar ["MUL_OP"] ;;
       direita <- fator_ ;;
       ret (binario esquerda direita op))
    esquerda.

Definition expr_simples_ : M (option No) :=
  esquerda <- termo_ ;;
  while_ n (atual_e "ADD_OP")
    (fun esquerda =>
       op <- combinar ["ADD_OP"] ;;
       direita <- termo_ ;;
       ret (binario esquerda direita op))
    esquerda.

Definition expr_ : M (option No) :=
  esquerda <- expr_simples_ ;;
  while_ n (atual_e "REL_OP")
    (fun esquerda =>
       op <- combinar ["REL_OP"] ;;
       direita <- expr_simples_ ;;
       ret (binario esquerda direita op))
    esquerda.
End Expressoes.

(** [expr]: the counter goes down by one at each call of [expr] from
    [fator], and bounds the turns of the loops on the way. *)
Fixpoint expr (n : nat) : M (option No) :=
  match n with
  | O => out_of_fuel
  | S n' => expr_ n' (expr n')
  end.

Definition fator (n : nat) : M (option No) := fator_ (expr n).
Definition termo (n : nat) : M (option No) := termo_ n (expr n).
Definition expr_simples (n : nat) : M (option No) :=
  expr_simples_ n (expr n).

(** ** Statements *)

Definition atribuicao (n : nat) : M No :=
  identificador <- combinar ["IDENTIFIER"] ;;
  combinar ["ASSIGN"] ;;;
  e <- expr n ;;
  combinar ["SEMICOLON"] ;;;
  ret (mkNo "ATRIBUICAO" [e] (FolhaStr (snd identificador))).

Definition decl_print (n : nat) : M No :=
  combinar ["PRINT"] ;;;
  combinar ["LPAREN"] ;;;
  e <- expr n ;;
  combinar ["RPAREN"] ;;;
  combinar ["SEMICOLON"] ;;;
  ret (mkNo "DECL_PRINT" [e] SemFolha).

Section Declaracoes.
(** [declaracoes_rec] is the call [self.declaracoes()] made for the
    body of an [if], an [else] or a [while]. *)
Variable n : nat.
Variable declaracoes_rec : M No.

Definition decl_if_ : M No :=
  combinar ["IF"] ;;;
  combinar ["LPAREN"] ;;;
  condicao <- expr n ;;
  combinar ["RPAREN"] ;;;
  combinar ["LBRACE"] ;;;
  declaracoes_verdadeiras <- declaracoes_rec ;;
  combinar ["RBRACE"] ;;;
  senao <- atual_e "ELSE" ;;
  declaracoes_falsas <-
    (if senao then
       combinar ["ELSE"] ;;;
       combinar ["LBRACE"] ;;;
       d <- declaracoes_rec ;;
       combinar ["RBRACE"] ;;;
       ret (Some d)
     else ret None) ;;
  ret (mkNo "DECL_IF"
         [condicao; Some declaracoes_verdadeiras; declaracoes_falsas]
         SemFolha).

Definition decl_while_ : M No :=
  combinar ["WHILE"] ;;;
  combinar ["LPAREN"] ;;;
  condicao <- expr n ;;
  combinar ["RPAREN"] ;;;
  combinar ["LBRACE"] ;;;
  declaracoes_loop <- declaracoes_rec ;;
  combinar ["RBRACE"] ;;;
  ret (mkNo "DECL_WHILE" [condicao; Some declaracoes_loop] SemFolha).

(** The subscripts [self.token_atual[0]] of the [if]/[elif] chain read
    the lookahead the loop test has just read. *)
Definition declaracoes_ : M No :=
  nos <- while_ n (atual_em ["IDENTIFIER"; "IF"; "WHILE"; "PRINT"])
    (fun nos =>
       k <- tipo_atual ;;
       if String.eqb k "IDENTIFIER" then
         d <- atribuicao n ;; ret (nos ++ [Some d])
       else if String.eqb k "IF" then
         d <- decl_if_ ;; ret (nos ++ [Some d])
       else if String.eqb k "WHILE" then
         d <- decl_while_ ;; ret (nos ++ [Some d])
       else if String.eqb k "PRINT" then
         d <- decl_print n ;; ret (nos ++ [Some d])
       else ret nos)
    [] ;;
  ret (mkNo "DECLARACOES" nos SemFolha).
End Declaracoes.

(** [declaracoes]: the counter goes down by one at each block that is
    entered. *)
Fixpoint declaracoes (n : nat) : M No :=
  match n with
  | O => out_of_fuel
  | S n' => declaracoes_ n' (declaracoes n')
  end.

Definition decl_while (n : nat) : M No := decl_while_ n (declaracoes n).

(** ** Program *)

Definition secao_var (n : nat) : M No :=
  nos <- while_ n (atual_e "VAR")
    (fun nos =>
       combinar ["VAR"] ;;;
       identificador <- combinar ["IDENTIFIER"] ;;
       combinar ["COLON"] ;;;
       tipo <- combinar ["INT"; "FLOAT"; "BOOL"] ;;
       combinar ["SEMICOLON"] ;;;
       ret (nos ++ [Some (mkNo "DECL_VAR" []
                            (FolhaPar (snd identificador) (fst tipo)))]))
    [] ;;
  ret (mkNo "SECAO_VAR" nos SemFolha).

Definition programa (n : nat) : M No :=
  combinar ["PROGRAM"] ;;;
  identificador <- combinar ["IDENTIFIER"] ;;
  combinar ["LBRACE"] ;;;
  sv <- secao_var n ;;
  ds <- declaracoes n ;;
  combinar ["RBRACE"] ;;;
  ret (mkNo "PROGRAMA" [Some sv; Some ds] (FolhaStr (snd identificador))).

(** [analisar]: [self.ast = self.programa()] *)
Definition analisar (n : nat) : M unit :=
  raiz <- programa n ;;
  fun self =>
    (Ok tt, {| tokens := tokens self; token_atual := token_atual self;
               ast := Some raiz |}).

(** [Analisador(tokens)]: the first token is popped off the list; on the
    empty list [pop(0)] raises. *)
Definition init (toks : list token) : result unit * Analisador :=
  match toks with
  | t :: resto =>
      (Ok tt, {| tokens := resto; token_atual := Some t; ast := None |})
  | [] =>
      (Raise IndexError, {| tokens := []; token_atual := None; ast := None |})
  end.

(** [analisador = Analisador(tokens); analisador.analisar()] *)
Definition executar (n : nat) (toks : list token) : result unit * Analisador :=
  match init toks with
  | (Ok _, self) => analisar n self
  | (r, self) => (r, self)
  end.

(** A counter that is enough for every token list (see
    [executar_termina]): a loop turn and a nested call each consume a
    token first. *)
Definition fuel_for (toks : list token) : nat := List.length toks + 2.

(** The parser as the caller sees it. *)
Definition parse (toks : list token) : result unit * Analisador :=
  executar (fuel_for toks) toks.

(** [Analisador(tokens).expr()]: a token list parsed as an expression. *)
Definition executar_expr (n : nat) (toks : list token)
    : result (option No) * Analisador :=
  match init toks with
  | (Ok _, self) => expr n self
  | (Raise e, self) => (Raise e, self)
  | (OutOfFuel, self) => (OutOfFuel, self)
  end.

Definition parse_expr (toks : list token)
    : result (option No) * Analisador :=
  executar_expr (fuel_for toks) toks.

(** ** Notions for reasoning about methods *)

(** What is left to read: the list and the lookahead. *)
Definition size (self : Analisador) : nat :=
  List.length (tokens self)
  + match token_atual self with Some _ => 1 | None => 0 end.

(** A method keeps the relation [R] between the object before and after
    the call, whatever its outcome. *)
Definition preserva (R : Analisador -> Analisador -> Prop) {A} (m : M A)
    : Prop :=
  forall s, R s (snd (m s)).

(** The list only loses tokens, from its front. *)
Definition sufixo (s s' : Analisador) : Prop :=
  exists l, tokens s = l ++ tokens s'.

(** What is left to read never grows. *)
Definition nao_cresce (s s' : Analisador) : Prop := size s' <= size s.

Definition decresce {A} (m : M A) : Prop := preserva nao_cresce m.

(** A successful call has consumed a token. *)
Definition progride {A} (m : M A) : Prop :=
  forall s a s', m s = (Ok a, s') -> size s' < size s.

(** The counter does not run out on an input of at most [k] tokens. *)
Definition seguro {A} (k : nat) (m : M A) : Prop :=
  forall s, size s <= k -> fst (m s) <> OutOfFuel.

Definition nunca_esgota {A} (m : M A) : Prop :=
  forall s, fst (m s) <> OutOfFuel.

(** [m'] gives every result that [m] gives without running out. *)
Definition estende {A} (m m' : M A) : Prop :=
  forall s r s', m s = (r, s') -> r <> OutOfFuel -> m' s = (r, s').

(** The three binary levels [termo], [expr_simples] and [expr] are one
    loop over the operand parser [sub] of the level below. *)
Definition laco (n : nat) (op : string) (sub : M (option No))
    : option No -> M (option No) :=
  while_ n (atual_e op)
    (fun esquerda =>
       o <- combinar [op] ;;
       direita <- sub ;;
       ret (binario esquerda direita o)).

Definition nivel (n : nat) (op : string) (sub : M (option No))
    : M (option No) :=
  esquerda <- sub ;; laco n op sub esquerda.

(** ** Trees and states of the examples *)

Definition numero (v : string) : option No :=
  Some (mkNo "NUMERO" [] (FolhaStr v)).

Definition operacao (op : string) (esquerda direita : option No) : option No :=
  Some (mkNo "EXPR" [esquerda; direita] (FolhaStr op)).

(** [(10 - 3) - 2] and [1 + (2 * 3)] *)
Definition arvore_10_3_2 : option No :=
  operacao "-" (operacao "-" (numero "10") (numero "3")) (numero "2").
Definition arvore_1_2_3 : option No :=
  operacao "+" (numero "1") (operacao "*" (numero "2") (numero "3")).

Definition operadores : list string := ["MUL_OP"; "ADD_OP"; "REL_OP"].

(** The end of the input: nothing in the list and no lookahead. *)
Definition fim : Analisador :=
  {| tokens := []; token_atual := None; ast := None |}.

(** In front of the [;] of [x = ;]. *)
Definition diante_do_ponto_e_virgula : Analisador :=
  {| tokens := [("RBRACE", "}")]; token_atual := Some ("SEMICOLON", ";");
     ast := None |}.

End Parser.

(** The quotation mark, and the program at the end of [an_parser.py]. *)
Definition aspas : string := String (ascii_of_nat 34) "".

Definition codigo_exemplo : string :=
"programa teste
{
    var x : int;
    var y : float;
    var z : bool;
    x = 10;
    y = 3.14;
    z = true;
    
    if (x > 5) {
        print(x);
    } else {
        print(x - 1);
    }

    while (x > 0) {
        x = x - 1;
        print(x);
    }

    if (z) {
        print(" ++ aspas ++ "TRUE" ++ aspas ++ ");
    } else {
        print(" ++ aspas ++ "FALSE" ++ aspas ++ ");
    }
}".

(* ================================================================== *)
(** * Further notions                                                  *)
(* ================================================================== *)

Module LexerNotions.
Import Regex Lexer.

(** The keyword kinds of the table and their spelling. *)
Definition palavras_chave : list (string * string) :=
  [ ("PROGRAM", "programa"); ("VAR", "var"); ("INT", "int");
    ("FLOAT", "float"); ("BOOL", "bool"); ("IF", "if"); ("ELSE", "else");
    ("WHILE", "while"); ("PRINT", "print"); ("TRUE", "true");
    ("FALSE", "false") ].

(** The character before the scan point once [m] has been read. *)
Definition ultimo (d : option ascii) (m : list ascii) : option ascii :=
  fold_left (fun _ c => Some c) m d.

(** [l1] is [l2] with some elements left out. *)
Inductive subsequencia {A : Type} : list A -> list A -> Prop :=
| sub_nil : subsequencia [] []
| sub_salta x l1 l2 : subsequencia l1 l2 -> subsequencia l1 (x :: l2)
| sub_toma x l1 l2 : subsequencia l1 l2 -> subsequencia (x :: l1) (x :: l2).

(** The texts of the tokens, one after the other. *)
Definition textos (toks : list token) : list ascii :=
  flat_map (fun t => list_ascii_of_string (snd t)) toks.

(** ** Characters that no pattern accepts *)

(** No character class of [r] accepts [c]. *)
Fixpoint cego (c : ascii) (r : regex) : bool :=
  match r with
  | Cls p | Star p | StarLazy p => negb (p c)
  | Opt r1 => cego c r1
  | Seq r1 r2 | Alt r1 r2 => cego c r1 && cego c r2
  | WordB | Eps => true
  end.

(** The characters that the patterns of the table spell out. *)
Definition pontuacao : list ascii :=
  [";"; ":"; "{"; "}"; "("; ")"; "+"; "-"; "*"; "/"; "<"; ">"; "="; "!";
   "."]%char.

(** A character such as ["@"]: neither a word character, nor whitespace,
    nor one of the characters of the patterns. *)
Definition inerte (c : ascii) : bool :=
  negb (is_word c) && negb (is_space c) && negb (one_of pontuacao c).

(** Every pattern of the table but the comment's is blind to [c]. *)
Definition tabela_cega (c : ascii) : bool :=
  forallb (fun e => String.eqb (fst e) "MULTILINE_COMMENT" || cego c (snd e))
    especificacoes_tokens.

(** The text starts with ["/*"]. *)
Definition abre (s : list ascii) : bool :=
  match s with
  | c :: d :: _ => Ascii.eqb c "/" && Ascii.eqb d "*"
  | _ => false
  end.

(** The text has no ["/*"] in it. *)
Fixpoint sem_abre (s : list ascii) : bool :=
  match s with
  | [] => true
  | _ :: s' => negb (abre s) && sem_abre s'
  end.

(** A position with the text [cauda] put behind what it has to read. *)
Definition alonga (cauda : list ascii) (q : pos) : pos :=
  (fst q, snd q ++ cauda).

(** Two positions that no pattern can tell apart: the same text to read,
    and a word character before both or before neither. *)
Definition mesma (q q' : pos) : Prop :=
  snd q = snd q' /\ word_opt (fst q) = word_opt (fst q').

(** ** The scan, piece by piece

    [varredura prev s toks]: scanning the text [s], with [prev] before
    it, returns [toks].  At each position the scan reaches, either no
    pattern matches and one character is passed over, or the first
    pattern that matches takes a piece [m] of the text, which becomes a
    token unless its kind is [WHITESPACE]; the scan goes on behind the
    piece. *)
Inductive varredura : option ascii -> list ascii -> list token -> Prop :=
| var_fim prev : varredura prev [] []
| var_salto prev c s toks :
    match_at especificacoes_tokens (prev, c :: s) = None ->
    varredura (Some c) s toks ->
    varredura prev (c :: s) toks
| var_branco prev m s toks :
    m <> [] ->
    match_at especificacoes_tokens (prev, m ++ s)
      = Some ("WHITESPACE", List.length m) ->
    varredura (ultimo prev m) s toks ->
    varredura prev (m ++ s) toks
| var_token prev m s nome toks :
    m <> [] ->
    nome <> "WHITESPACE" ->
    match_at especificacoes_tokens (prev, m ++ s)
      = Some (nome, List.length m) ->
    varredura (ultimo prev m) s toks ->
    varredura prev (m ++ s) ((nome, string_of_list_ascii m) :: toks).

End LexerNotions.

Module ParserNotions.
Import Parser.

(** The input still to be read, lookahead first. *)
Definition entrada (s : Analisador) : list token :=
  match token_atual s with
  | Some t => t :: tokens s
  | None => tokens s
  end.

(** The object that has [l] still to read. *)
Definition de_entrada (l : list token) (a : option No) : Analisador :=
  match l with
  | t :: r => {| tokens := r; token_atual := Some t; ast := a |}
  | [] => {| tokens := []; token_atual := None; ast := a |}
  end.

(** The lookahead is [None] only when the list is empty, as it is after
    [__init__] and after every [combinar]. *)
Definition bem_formado (s : Analisador) : Prop :=
  token_atual s = None -> tokens s = [].

(** What is left to read after the call is a final part of what was
    left before it. *)
Definition resta (s s' : Analisador) : Prop :=
  exists lidos, entrada s = lidos ++ entrada s'.

Definition mantem_forma (s s' : Analisador) : Prop :=
  bem_formado s -> bem_formado s'.

(** Where an exception leaves the object: a [SyntaxError] carries the
    lookahead, a [TypeError] comes from the lookahead [None], and no
    method raises [IndexError]. *)
Definition erro_situado {A} (m : M A) : Prop :=
  forall s e s',
    m s = (Raise e, s') ->
    match e with
    | SyntaxError t => token_atual s' = Some t
    | TypeError => token_atual s' = None
    | IndexError => False
    end.

(** A node that [secao_var] appends. *)
Definition decl_var (c : option No) : Prop :=
  exists nome tipo,
    c = Some (mkNo "DECL_VAR" [] (FolhaPar nome tipo)) /\
    em tipo ["INT"; "FLOAT"; "BOOL"] = true.

(** A node that [declaracoes] appends. *)
Definition declaracao (c : option No) : Prop :=
  exists d,
    c = Some d /\
    em (tipo_de d) ["ATRIBUICAO"; "DECL_IF"; "DECL_WHILE"; "DECL_PRINT"]
      = true.

(** The object with [extra] put behind what it has still to read. *)
Definition prolonga (extra : list token) (s : Analisador) : Analisador :=
  de_entrada (entrada s ++ extra) (ast s).

(** A successful call does not depend on what comes after the tokens it
    has read: with more tokens behind, it gives the same value and stops
    at the same place. *)
Definition local {A} (m : M A) : Prop :=
  forall extra s a s',
    bem_formado s ->
    m s = (Ok a, s') ->
    m (prolonga extra s) = (Ok a, prolonga extra s').

(** ** Programs made of declarations *)

(** The tokens of [var nome : tipo;], given the token of the type, and
    the node that [secao_var] builds for it. *)
Definition tokens_decl (d : string * token) : list token :=
  [("VAR", "var"); ("IDENTIFIER", fst d); ("COLON", ":"); snd d;
   ("SEMICOLON", ";")].

Definition no_decl (d : string * token) : option No :=
  Some (mkNo "DECL_VAR" [] (FolhaPar (fst d) (fst (snd d)))).

Definition tipo_valido (d : string * token) : Prop :=
  em (fst (snd d)) ["INT"; "FLOAT"; "BOOL"] = true.

(** [programa nome { declarations }] *)
Definition programa_de (nome : string) (decls : list (string * token))
    : list token :=
  [("PROGRAM", "programa"); ("IDENTIFIER", nome); ("LBRACE", "{")]
  ++ flat_map tokens_decl decls ++ [("RBRACE", "}")].

(** ** Chains of operators *)

(** The kinds of the operands that are one token long, and the leaf that
    [fator] builds for such a token. *)
Definition simples : list string := ["IDENTIFIER"; "NUMBER"; "TRUE"; "FALSE"].

Definition no_atomo (t : token) : option No :=
  Some (mkNo
          (if String.eqb (fst t) "IDENTIFIER" then "IDENTIFICADOR"
           else if String.eqb (fst t) "NUMBER" then "NUMERO"
           else "BOOLEANO")
          [] (FolhaStr (snd t))).

(** [op1 a1 op2 a2 ...]: operators, each followed by its right operand. *)
Definition cadeia (pares : list (token * token)) : list token :=
  flat_map (fun p => [fst p; snd p]) pares.

(** [((a0 op1 a1) op2 a2) ...] *)
Definition dobra (acc : option No) (pares : list (token * token))
    : option No :=
  fold_left (fun acc p => binario acc (no_atomo (snd p)) (fst p)) pares acc.

(** Every operator of the chain is of kind [k], every operand is one
    token long. *)
Definition cadeia_de (k : string) (pares : list (token * token)) : Prop :=
  Forall (fun p => fst (fst p) = k /\ em (fst (snd p)) simples = true) pares.

(** [sub] reads an operand of one token when the token [x] behind it
    passes [ok]. *)
Definition le_atomo (sub : M (option No)) (ok : token -> Prop) : Prop :=
  forall a x l a0,
    em (fst a) simples = true -> ok x ->
    sub (de_entrada (a :: x :: l) a0) =
      (Ok (no_atomo a), de_entrada (x :: l) a0).

End ParserNotions.

(* ================================================================== *)
(** * an_parser.py: printing a tree                                    *)
(* ================================================================== *)

Module Repr.
Import Parser.

Section Repr.
(** [repr] of a Python [str], used when the pair of a [DECL_VAR] leaf is
    formatted.  It is a built-in and stays a parameter. *)
Variable py_repr : string -> string.

Definition nova_linha : string := String (ascii_of_nat 10) "".

Definition junta (l : list string) : string := fold_right append "" l.

(** ["  " * nivel] *)
Definition recuo (nivel : nat) : string := junta (repeat "  " nivel).

(** [f": {self.folha}"], when [folha] is not [None] *)
Definition mostra_folha (folha : folha_t) : string :=
  match folha with
  | SemFolha => ""
  | FolhaStr v => (": " ++ v)%string
  | FolhaPar nome tipo =>
      (": (" ++ py_repr nome ++ ", " ++ py_repr tipo ++ ")")%string
  end.

(** The line of a node. *)
Definition linha (nivel : nat) (n : No) : string :=
  (recuo nivel ++ tipo_de n ++ mostra_folha (folha_de n) ++ nova_linha)%string.

(** [Nó.__repr__(self, nivel)].  The loop adds the text of each child; a
    child that is [None] has no [__repr__] taking a level, and the call
    raises [TypeError]. *)
Fixpoint repr (n : No) (nivel : nat) {struct n} : result string :=
  match n with
  | mkNo _ filhos _ =>
      (fix laco (l : list (option No)) (resultado : string) {struct l}
           : result string :=
         match l with
         | [] => Ok resultado
         | None :: _ => Raise TypeError
         | Some filho :: l' =>
             match repr filho (S nivel) with
             | Ok r => laco l' (resultado ++ r)%string
             | Raise e => Raise e
             | OutOfFuel => OutOfFuel
             end
         end) filhos (linha nivel n)
  end.


End Repr.



End Repr.

(* ================================================================== *)
(** * Reasoning about the scan                                         *)
(* ================================================================== *)

Module LexerFacts.
Import Regex Lexer.

(** ** A match of a table entry is never empty *)

Lemma star_greedy_resto p : forall s prev q,
  In q (star_greedy p prev s) -> resto q <= List.length s.
Proof.
  induction s as [| c s IH]; intros prev q; simpl.
  - intros [<- | []]. unfold resto. simpl. lia.
  - destruct (p c).
    + rewrite in_app_iff. intros [H | [<- | []]].
      * apply IH in H. lia.
      * unfold resto. simpl. lia.
    + intros [<- | []]. unfold resto. simpl. lia.
Qed.

Lemma star_lazy_resto p : forall s prev q,
  In q (star_lazy p prev s) -> resto q <= List.length s.
Proof.
  induction s as [| c s IH]; intros prev q; simpl.
  - intros [<- | []]. unfold resto. simpl. lia.
  - destruct (p c).
    + intros [<- | H].
      * unfold resto. simpl. lia.
      * apply IH in H. lia.
    + intros [<- | []]. unfold resto. simpl. lia.
Qed.

Lemma run_resto r : forall q q',
  In q' (run r q) ->
  resto q' <= resto q /\ (nonempty r = true -> resto q' < resto q).
Proof.
  induction r as [p | p | p | r IH | r1 IH1 r2 IH2 | r1 IH1 r2 IH2 | |];
    intros q q'; simpl.
  - unfold resto. destruct (snd q) as [| c s']; [intros [] |].
    destruct (p c); [| intros []].
    intros [<- | []]. simpl. lia.
  - intro H. apply star_greedy_resto in H. split; [exact H | discriminate].
  - intro H. apply star_lazy_resto in H. split; [exact H | discriminate].
  - rewrite in_app_iff. intros [H | [<- | []]].
    + apply IH in H. split; [apply H | discriminate].
    + split; [lia | discriminate].
  - rewrite in_flat_map. intros (q1 & H1 & H2).
    apply IH1 in H1. apply IH2 in H2. split; [lia |].
    rewrite orb_true_iff. intros [E | E]; [apply H1 in E | apply H2 in E]; lia.
  - rewrite in_app_iff, andb_true_iff.
    intros [H | H]; [apply IH1 in H | apply IH2 in H];
      (split; [apply H | intros [E1 E2]; apply H; assumption]).
  - destruct (at_boundary q); [| intros []].
    intros [<- | []]. split; [lia | discriminate].
  - intros [<- | []]. split; [lia | discriminate].
Qed.

Lemma match_at_nonempty specs :
  forallb (fun e => nonempty (snd e)) specs = true ->
  forall q nome len, match_at specs q = Some (nome, len) -> 1 <= len.
Proof.
  induction specs as [| [nm r] specs IH]; simpl; intros Hall q nome len.
  - discriminate.
  - apply andb_true_iff in Hall. destruct Hall as [Hr Hall].
    destruct (run r q) as [| [o s'] l] eqn:E.
    + apply IH, Hall.
    + intro H. injection H as _ <-.
      assert (Hin : In (o, s') (run r q)) by (rewrite E; left; reflexivity).
      apply run_resto in Hin. destruct Hin as [_ Hlt].
      specialize (Hlt Hr). unfold resto in Hlt. simpl in Hlt. lia.
Qed.

(** Every match of the tokenizer's pattern takes at least one character,
    so [finditer] moves on after each match. *)
Lemma match_at_table q nome len :
  match_at especificacoes_tokens q = Some (nome, len) -> 1 <= len.
Proof. apply match_at_nonempty. reflexivity. Qed.

(** ** Positions of a text *)

Lemma length_list_ascii src :
  List.length (list_ascii_of_string src) = String.length src.
Proof. induction src as [| c src IH]; simpl; congruence. Qed.

Lemma skipn_cons {A} (l : list A) : forall i,
  i < List.length l -> exists c s, skipn i l = c :: s.
Proof.
  induction l as [| x l IH]; intros i Hi; simpl in Hi; [lia |].
  destruct i as [| i]; simpl.
  - exists x, l. reflexivity.
  - apply IH. lia.
Qed.

(** ** The loop of [analisar_tokens] is a filter *)

Lemma fold_passo l : forall acc,
  fold_left passo l acc = acc ++ filter emitido l.
Proof.
  induction l as [| t l IH]; intro acc; simpl.
  - symmetry. apply app_nil_r.
  - rewrite IH. unfold passo, emitido.
    destruct (negb (String.eqb (fst t) "WHITESPACE")); simpl.
    + rewrite <- app_assoc. reflexivity.
    + reflexivity.
Qed.

Lemma tokenize_filter src :
  tokenize src = filter emitido (finditer especificacoes_tokens src).
Proof. unfold tokenize, analisar_tokens. simpl. apply fold_passo. Qed.

End LexerFacts.

(* ================================================================== *)
(** * Reasoning about methods                                          *)
(* ================================================================== *)

Module ParserFacts.
Import Parser.

Lemma bind_run {A B} (m : M A) (f : A -> M B) (s : Analisador) :
  bind m f s =
    match fst (m s) with
    | Ok a => f a (snd (m s))
    | Raise e => (Raise e, snd (m s))
    | OutOfFuel => (OutOfFuel, snd (m s))
    end.
Proof. unfold bind. destruct (m s) as [[a | e |] s']; reflexivity. Qed.

(** ** Relations between the object before and after a call *)

Create HintDb preserva.

Section Preserva.
Variable R : Analisador -> Analisador -> Prop.
Hypothesis R_refl : forall s, R s s.
Hypothesis R_trans : forall a b c, R a b -> R b c -> R a c.
Hypothesis R_avancar : forall s, R s (avancar s).
Hypothesis R_ast :
  forall s a,
    R s {| tokens := tokens s; token_atual := token_atual s; ast := a |}.

Lemma preserva_ret {A} (a : A) : preserva R (ret a).
Proof. intro s. apply R_refl. Qed.

Lemma preserva_raise {A} e : preserva R (@raise A e).
Proof. intro s. apply R_refl. Qed.

Lemma preserva_out_of_fuel {A} : preserva R (@out_of_fuel A).
Proof. intro s. apply R_refl. Qed.

Lemma preserva_bind {A B} (m : M A) (f : A -> M B) :
  preserva R m -> (forall a, preserva R (f a)) -> preserva R (bind m f).
Proof.
  intros Hm Hf s. rewrite bind_run. specialize (Hm s).
  destruct (fst (m s)); simpl; auto.
  eapply R_trans; [exact Hm | apply Hf].
Qed.

Lemma preserva_ite {A} (b : bool) (m1 m2 : M A) :
  preserva R m1 -> preserva R m2 -> preserva R (if b then m1 else m2).
Proof. destruct b; auto. Qed.

Lemma preserva_while {A} n cond (body : A -> M A) :
  preserva R cond -> (forall a, preserva R (body a)) ->
  forall a, preserva R (while_ n cond body a).
Proof.
  intros Hc Hb. induction n as [| n IH]; intro a; simpl.
  - apply preserva_out_of_fuel.
  - apply preserva_bind; [exact Hc |].
    intros [|]; [| apply preserva_ret].
    apply preserva_bind; auto.
Qed.

Lemma preserva_tipo_atual : preserva R tipo_atual.
Proof.
  intro s. unfold tipo_atual. destruct (token_atual s); apply R_refl.
Qed.

Lemma preserva_combinar tipos : preserva R (combinar tipos).
Proof.
  intro s. unfold combinar. destruct (token_atual s) as [tok |].
  - destruct (em (fst tok) tipos); simpl; auto.
  - apply R_refl.
Qed.

Hint Resolve preserva_ret preserva_raise preserva_out_of_fuel
  preserva_tipo_atual preserva_combinar : preserva.

Ltac preserva_step :=
  first
    [ apply preserva_bind; [| intro]
    | apply preserva_ite
    | apply preserva_while; [| intro]
    | solve [auto with preserva] ].

Lemma preserva_atual_e tipo : preserva R (atual_e tipo).
Proof. unfold atual_e. repeat preserva_step. Qed.

Lemma preserva_atual_em tipos : preserva R (atual_em tipos).
Proof. unfold atual_em. repeat preserva_step. Qed.

Hint Resolve preserva_atual_e preserva_atual_em : preserva.

Lemma preserva_fator_ rec : preserva R rec -> preserva R (fator_ rec).
Proof. intro Hr. unfold fator_. repeat preserva_step. Qed.

Lemma preserva_termo_ n rec : preserva R rec -> preserva R (termo_ n rec).
Proof.
  intro Hr. pose proof (preserva_fator_ rec Hr).
  unfold termo_. repeat preserva_step.
Qed.

Lemma preserva_expr_simples_ n rec :
  preserva R rec -> preserva R (expr_simples_ n rec).
Proof.
  intro Hr. pose proof (preserva_termo_ n rec Hr).
  unfold expr_simples_. repeat preserva_step.
Qed.

Lemma preserva_expr_ n rec : preserva R rec -> preserva R (expr_ n rec).
Proof.
  intro Hr. pose proof (preserva_expr_simples_ n rec Hr).
  unfold expr_. repeat preserva_step.
Qed.

Lemma preserva_expr n : preserva R (expr n).
Proof.
  induction n as [| n IH]; simpl.
  - apply preserva_out_of_fuel.
  - apply preserva_expr_, IH.
Qed.

Hint Resolve preserva_expr : preserva.

Lemma preserva_atribuicao n : preserva R (atribuicao n).
Proof. unfold atribuicao. repeat preserva_step. Qed.

Lemma preserva_decl_print n : preserva R (decl_print n).
Proof. unfold decl_print. repeat preserva_step. Qed.

Lemma preserva_decl_if_ n rec : preserva R rec -> preserva R (decl_if_ n rec).
Proof. intro Hr. unfold decl_if_. repeat preserva_step. Qed.

Lemma preserva_decl_while_ n rec :
  preserva R rec -> preserva R (decl_while_ n rec).
Proof. intro Hr. unfold decl_while_. repeat preserva_step. Qed.

Lemma preserva_declaracoes_ n rec :
  preserva R rec -> preserva R (declaracoes_ n rec).
Proof.
  intro Hr.
  pose proof (preserva_atribuicao n). pose proof (preserva_decl_print n).
  pose proof (preserva_decl_if_ n rec Hr).
  pose proof (preserva_decl_while_ n rec Hr).
  unfold declaracoes_. repeat preserva_step.
Qed.

Lemma preserva_declaracoes n : preserva R (declaracoes n).
Proof.
  induction n as [| n IH]; simpl.
  - apply preserva_out_of_fuel.
  - apply preserva_declaracoes_, IH.
Qed.

Lemma preserva_secao_var n : preserva R (secao_var n).
Proof. unfold secao_var. repeat preserva_step. Qed.

Lemma preserva_programa n : preserva R (programa n).
Proof.
  pose proof (preserva_secao_var n). pose proof (preserva_declaracoes n).
  unfold programa. repeat preserva_step.
Qed.

Lemma preserva_analisar n : preserva R (analisar n).
Proof.
  unfold analisar. apply preserva_bind; [apply preserva_programa |].
  intros raiz s. apply R_ast.
Qed.
End Preserva.

Lemma sufixo_refl s : sufixo s s.
Proof. exists []. reflexivity. Qed.

Lemma sufixo_trans a b c : sufixo a b -> sufixo b c -> sufixo a c.
Proof.
  intros [l1 H1] [l2 H2]. exists (l1 ++ l2).
  rewrite H1, H2. apply app_assoc.
Qed.

Lemma sufixo_avancar s : sufixo s (avancar s).
Proof.
  unfold sufixo, avancar. destruct (tokens s) as [| t r]; simpl.
  - exists []. reflexivity.
  - exists [t]. reflexivity.
Qed.

Lemma sufixo_ast s a :
  sufixo s {| tokens := tokens s; token_atual := token_atual s; ast := a |}.
Proof. exists []. reflexivity. Qed.

Lemma nao_cresce_refl s : nao_cresce s s.
Proof. unfold nao_cresce. lia. Qed.

Lemma nao_cresce_trans a b c :
  nao_cresce a b -> nao_cresce b c -> nao_cresce a c.
Proof. unfold nao_cresce. lia. Qed.

Lemma nao_cresce_avancar s : nao_cresce s (avancar s).
Proof.
  unfold nao_cresce, avancar, size.
  destruct (tokens s) as [| t r]; simpl; [lia |].
  destruct (token_atual s); lia.
Qed.

Lemma nao_cresce_ast s a :
  nao_cresce s
    {| tokens := tokens s; token_atual := token_atual s; ast := a |}.
Proof. unfold nao_cresce, size. simpl. lia. Qed.

Ltac por_preserva lema :=
  unfold decresce in *; apply lema;
  first [ exact nao_cresce_refl | exact nao_cresce_trans
        | exact nao_cresce_avancar | exact nao_cresce_ast | assumption ].

Lemma decresce_ret {A} (a : A) : decresce (ret a).
Proof. por_preserva @preserva_ret. Qed.

Lemma decresce_bind {A B} (m : M A) (f : A -> M B) :
  decresce m -> (forall a, decresce (f a)) -> decresce (bind m f).
Proof. intros Hm Hf. por_preserva @preserva_bind. Qed.

Lemma decresce_ite {A} (b : bool) (m1 m2 : M A) :
  decresce m1 -> decresce m2 -> decresce (if b then m1 else m2).
Proof. destruct b; auto. Qed.

Lemma decresce_while {A} n cond (body : A -> M A) a :
  decresce cond -> (forall a, decresce (body a)) ->
  decresce (while_ n cond body a).
Proof. intros Hc Hb. por_preserva @preserva_while. Qed.

Lemma decresce_tipo_atual : decresce tipo_atual.
Proof. por_preserva preserva_tipo_atual. Qed.

Lemma decresce_combinar tipos : decresce (combinar tipos).
Proof. por_preserva preserva_combinar. Qed.

Lemma decresce_atual_e tipo : decresce (atual_e tipo).
Proof. por_preserva preserva_atual_e. Qed.

Lemma decresce_atual_em tipos : decresce (atual_em tipos).
Proof. por_preserva preserva_atual_em. Qed.

Lemma decresce_fator_ rec : decresce rec -> decresce (fator_ rec).
Proof. intro H. por_preserva preserva_fator_. Qed.

Lemma decresce_expr n : decresce (expr n).
Proof. por_preserva preserva_expr. Qed.

Lemma decresce_atribuicao n : decresce (atribuicao n).
Proof. por_preserva preserva_atribuicao. Qed.

Lemma decresce_decl_print n : decresce (decl_print n).
Proof. por_preserva preserva_decl_print. Qed.

Lemma decresce_decl_if_ n rec : decresce rec -> decresce (decl_if_ n rec).
Proof. intro H. por_preserva preserva_decl_if_. Qed.

Lemma decresce_decl_while_ n rec :
  decresce rec -> decresce (decl_while_ n rec).
Proof. intro H. por_preserva preserva_decl_while_. Qed.

Lemma decresce_declaracoes n : decresce (declaracoes n).
Proof. por_preserva preserva_declaracoes. Qed.

Lemma decresce_secao_var n : decresce (secao_var n).
Proof. por_preserva preserva_secao_var. Qed.

Create HintDb decresce.
#[local] Hint Resolve decresce_ret decresce_tipo_atual decresce_combinar
  decresce_atual_e decresce_atual_em decresce_fator_ decresce_expr
  decresce_atribuicao decresce_decl_print decresce_decl_if_
  decresce_decl_while_ decresce_declaracoes decresce_secao_var : decresce.

Ltac decresce_tac :=
  repeat first
    [ assumption
    | apply decresce_bind; [| intro]
    | apply decresce_ite
    | apply decresce_while; [| intro]
    | solve [auto with decresce] ].

Lemma decresce_size {A} (m : M A) s r s' :
  decresce m -> m s = (r, s') -> size s' <= size s.
Proof. intros H E. specialize (H s). rewrite E in H. exact H. Qed.

(** ** Progress: a successful call has consumed a token *)

Lemma progride_combinar tipos : progride (combinar tipos).
Proof.
  intros s a s'. unfold combinar, avancar, size.
  destruct (token_atual s) as [tok |]; [| discriminate].
  destruct (em (fst tok) tipos); [| discriminate].
  intro E. injection E as _ <-.
  destruct (tokens s); simpl; lia.
Qed.

Lemma progride_bind {A B} (m : M A) (f : A -> M B) :
  progride m -> (forall a, decresce (f a)) -> progride (bind m f).
Proof.
  intros Hm Hf s b s'. unfold bind.
  destruct (m s) as [[a | e |] s1] eqn:E; try discriminate.
  intro E2. apply Hm in E. apply (decresce_size _ _ _ _ (Hf a)) in E2. lia.
Qed.

(** ** The counter is large enough *)

Lemma nunca_seguro {A} k (m : M A) : nunca_esgota m -> seguro k m.
Proof. intros H s _. apply H. Qed.

Lemma seguro_menor {A} k k' (m : M A) : k' <= k -> seguro k m -> seguro k' m.
Proof. intros Hk H s Hs. apply H. lia. Qed.

Lemma nunca_ret {A} (a : A) : nunca_esgota (ret a).
Proof. intro s. discriminate. Qed.

Lemma nunca_tipo_atual : nunca_esgota tipo_atual.
Proof. intro s. unfold tipo_atual. destruct (token_atual s); discriminate. Qed.

Lemma nunca_combinar tipos : nunca_esgota (combinar tipos).
Proof.
  intro s. unfold combinar. destruct (token_atual s) as [tok |].
  - destruct (em (fst tok) tipos); discriminate.
  - discriminate.
Qed.

Lemma nunca_atual_e tipo : nunca_esgota (atual_e tipo).
Proof.
  intro s. unfold atual_e, bind, tipo_atual, ret.
  destruct (token_atual s); discriminate.
Qed.

Lemma nunca_atual_em tipos : nunca_esgota (atual_em tipos).
Proof.
  intro s. unfold atual_em, bind, tipo_atual, ret.
  destruct (token_atual s); discriminate.
Qed.

Lemma seguro_bind {A B} k (m : M A) (f : A -> M B) :
  seguro k m -> decresce m -> (forall a, seguro k (f a)) ->
  seguro k (bind m f).
Proof.
  intros Hm Hd Hf s Hs. specialize (Hm s Hs). unfold bind.
  destruct (m s) as [[a | e |] s1] eqn:E; simpl in *;
    try discriminate; try congruence.
  apply Hf. apply (decresce_size _ _ _ _ Hd) in E. lia.
Qed.

Lemma seguro_bind_prog {A B} k (m : M A) (f : A -> M B) :
  seguro k m -> progride m ->
  (forall a k', k' < k -> seguro k' (f a)) ->
  seguro k (bind m f).
Proof.
  intros Hm Hp Hf s Hs. specialize (Hm s Hs). unfold bind.
  destruct (m s) as [[a | e |] s1] eqn:E; simpl in *;
    try discriminate; try congruence.
  apply Hp in E. apply (Hf a (size s1)); lia.
Qed.

Lemma seguro_ite {A} k (b : bool) (m1 m2 : M A) :
  seguro k m1 -> seguro k m2 -> seguro k (if b then m1 else m2).
Proof. destruct b; auto. Qed.

(** A loop whose turns each consume a token makes at most [k] turns on an
    input of [k] tokens. *)
Lemma seguro_while {A} cond (body : A -> M A) :
  nunca_esgota cond -> decresce cond ->
  (forall s s1 a a' s2,
     cond s = (Ok true, s1) -> body a s1 = (Ok a', s2) -> size s2 < size s1) ->
  forall n k,
    k < n -> (forall a, seguro k (body a)) ->
    forall a, seguro k (while_ n cond body a).
Proof.
  intros Hc Hcd Hp. induction n as [| n IH]; intros k Hk Hb a s Hs; [lia |].
  simpl. unfold bind at 1. specialize (Hc s).
  destruct (cond s) as [[[|] | e |] s1] eqn:Ec; simpl in *;
    try discriminate; try congruence.
  pose proof (decresce_size _ _ _ _ Hcd Ec) as Hs1.
  unfold bind. pose proof (Hb a s1) as Hba.
  destruct (body a s1) as [[a' | e |] s2] eqn:Eb; simpl in *;
    try discriminate; [| apply Hba; lia].
  pose proof (Hp _ _ _ _ _ Ec Eb) as Hlt.
  apply (IH (k - 1)); try lia.
  intro a0. apply seguro_menor with k; [lia | apply Hb].
Qed.

Create HintDb nunca.
#[local] Hint Resolve nunca_ret nunca_tipo_atual nunca_combinar nunca_atual_e
  nunca_atual_em : nunca.

(** Steps that need no look at the counter. *)
Ltac seguro_tac :=
  repeat first
    [ assumption
    | apply nunca_seguro; solve [auto with nunca]
    | apply seguro_ite
    | apply seguro_bind; [| solve [decresce_tac] | intro] ].

Lemma seguro_fator_ k rec :
  (forall k', k' < k -> seguro k' rec) -> decresce rec ->
  seguro k (fator_ rec).
Proof.
  intros Hr Hd. unfold fator_.
  apply seguro_bind; [seguro_tac | decresce_tac | intro tipo].
  apply seguro_ite; [seguro_tac |].
  apply seguro_ite; [seguro_tac |].
  apply seguro_ite; [| seguro_tac].
  apply seguro_bind_prog;
    [seguro_tac | apply progride_combinar | intros ? k' Hk'].
  specialize (Hr k' Hk'). seguro_tac.
Qed.

(** Each binary level is [nivel] at its operator kind. *)
Lemma termo_nivel n rec : termo_ n rec = nivel n "MUL_OP" (fator_ rec).
Proof. reflexivity. Qed.

Lemma expr_simples_nivel n rec :
  expr_simples_ n rec = nivel n "ADD_OP" (termo_ n rec).
Proof. reflexivity. Qed.

Lemma expr_nivel n rec : expr_ n rec = nivel n "REL_OP" (expr_simples_ n rec).
Proof. reflexivity. Qed.

Lemma decresce_nivel n op sub : decresce sub -> decresce (nivel n op sub).
Proof. intro H. unfold nivel, laco. decresce_tac. Qed.

Lemma seguro_nivel n k op sub :
  k < n -> seguro k sub -> decresce sub -> seguro k (nivel n op sub).
Proof.
  intros Hk Hs Hd. unfold nivel, laco.
  apply seguro_bind; [exact Hs | exact Hd | intro esquerda].
  apply seguro_while; auto with nunca decresce.
  - intros s s1 a a' s2 _.
    apply (progride_bind (combinar [op])); [apply progride_combinar |].
    intro o. decresce_tac.
  - intro a. seguro_tac.
Qed.

Lemma seguro_expr_ n k rec :
  k < n -> (forall k', k' < k -> seguro k' rec) -> decresce rec ->
  seguro k (expr_ n rec).
Proof.
  intros Hk Hr Hd.
  rewrite expr_nivel, expr_simples_nivel, termo_nivel.
  repeat (apply seguro_nivel; [exact Hk | | repeat apply decresce_nivel;
                                            apply decresce_fator_, Hd]).
  apply seguro_fator_; assumption.
Qed.

Lemma seguro_expr n : forall k, k + 1 < n -> seguro k (expr n).
Proof.
  induction n as [| n IH]; intros k Hk; [lia |]. simpl.
  apply seguro_expr_; [lia | | apply decresce_expr].
  intros k' Hk'. apply IH. lia.
Qed.

(** A statement starts with a [combinar] that consumes its first token,
    so what follows runs on a shorter input. *)
Ltac apos_primeiro k' Hk' :=
  apply seguro_bind_prog;
    [seguro_tac | apply progride_combinar | intros ? k' Hk'].

Lemma seguro_atribuicao n k : k < n -> seguro k (atribuicao n).
Proof.
  intro Hk. unfold atribuicao. apos_primeiro k' Hk'.
  assert (seguro k' (expr n)) by (apply seguro_expr; lia).
  seguro_tac.
Qed.

Lemma seguro_decl_print n k : k < n -> seguro k (decl_print n).
Proof.
  intro Hk. unfold decl_print. apos_primeiro k' Hk'.
  assert (seguro k' (expr n)) by (apply seguro_expr; lia).
  seguro_tac.
Qed.

Lemma seguro_decl_if_ n k rec :
  k < n -> (forall k', k' < k -> seguro k' rec) -> decresce rec ->
  seguro k (decl_if_ n rec).
Proof.
  intros Hk Hr Hd. unfold decl_if_. apos_primeiro k' Hk'.
  assert (seguro k' (expr n)) by (apply seguro_expr; lia).
  specialize (Hr k' Hk'). seguro_tac.
Qed.

Lemma seguro_decl_while_ n k rec :
  k < n -> (forall k', k' < k -> seguro k' rec) -> decresce rec ->
  seguro k (decl_while_ n rec).
Proof.
  intros Hk Hr Hd. unfold decl_while_. apos_primeiro k' Hk'.
  assert (seguro k' (expr n)) by (apply seguro_expr; lia).
  specialize (Hr k' Hk'). seguro_tac.
Qed.

Lemma atual_em_true tipos s s1 :
  atual_em tipos s = (Ok true, s1) ->
  s1 = s /\ exists tok, token_atual s = Some tok /\ em (fst tok) tipos = true.
Proof.
  unfold atual_em, bind, tipo_atual, ret.
  destruct (token_atual s) as [tok |]; [| discriminate].
  intro E. injection E as E1 E2. split; [congruence |].
  exists tok. auto.
Qed.

Lemma atual_e_true tipo s s1 :
  atual_e tipo s = (Ok true, s1) ->
  s1 = s /\ exists tok, token_atual s = Some tok /\ fst tok = tipo.
Proof.
  unfold atual_e, bind, tipo_atual, ret.
  destruct (token_atual s) as [tok |]; [| discriminate].
  intro E. injection E as E1 E2. split; [congruence |].
  exists tok. split; [reflexivity |]. apply String.eqb_eq, E1.
Qed.

Lemma progride_atribuicao n : progride (atribuicao n).
Proof.
  unfold atribuicao. apply progride_bind; [apply progride_combinar |].
  intro. decresce_tac.
Qed.

Lemma progride_decl_print n : progride (decl_print n).
Proof.
  unfold decl_print. apply progride_bind; [apply progride_combinar |].
  intro. decresce_tac.
Qed.

Lemma progride_decl_if_ n rec : decresce rec -> progride (decl_if_ n rec).
Proof.
  intro H. unfold decl_if_. apply progride_bind; [apply progride_combinar |].
  intro. decresce_tac.
Qed.

Lemma progride_decl_while_ n rec :
  decresce rec -> progride (decl_while_ n rec).
Proof.
  intro H. unfold decl_while_.
  apply progride_bind; [apply progride_combinar |].
  intro. decresce_tac.
Qed.

Lemma progride_map {A B} (m : M A) (g : A -> B) :
  progride m -> progride (a <- m ;; ret (g a)).
Proof.
  intro H. apply progride_bind; [exact H | intro; apply decresce_ret].
Qed.

Lemma seguro_declaracoes_ n k rec :
  k < n -> (forall k', k' < k -> seguro k' rec) -> decresce rec ->
  seguro k (declaracoes_ n rec).
Proof.
  intros Hk Hr Hd. unfold declaracoes_.
  pose proof (seguro_atribuicao n k Hk).
  pose proof (seguro_decl_print n k Hk).
  pose proof (seguro_decl_if_ n k rec Hk Hr Hd).
  pose proof (seguro_decl_while_ n k rec Hk Hr Hd).
  apply seguro_bind; [| decresce_tac | intro; seguro_tac].
  apply seguro_while; auto with nunca decresce.
  - intros s s1 nos nos' s2 Ec. apply atual_em_true in Ec.
    destruct Ec as [-> (tok & Etok & Hem)].
    unfold bind at 1, tipo_atual. rewrite Etok.
    unfold em in Hem. simpl in Hem.
    destruct (String.eqb (fst tok) "IDENTIFIER");
      [apply progride_map, progride_atribuicao |].
    destruct (String.eqb (fst tok) "IF");
      [apply progride_map, progride_decl_if_, Hd |].
    destruct (String.eqb (fst tok) "WHILE");
      [apply progride_map, progride_decl_while_, Hd |].
    destruct (String.eqb (fst tok) "PRINT");
      [apply progride_map, progride_decl_print | discriminate].
  - intro nos. seguro_tac.
Qed.

Lemma seguro_declaracoes n : forall k, k + 1 < n -> seguro k (declaracoes n).
Proof.
  induction n as [| n IH]; intros k Hk; [lia |]. simpl.
  apply seguro_declaracoes_; [lia | | apply decresce_declaracoes].
  intros k' Hk'. apply IH. lia.
Qed.

Lemma seguro_secao_var n k : k < n -> seguro k (secao_var n).
Proof.
  intro Hk. unfold secao_var.
  apply seguro_bind; [| decresce_tac | intro; seguro_tac].
  apply seguro_while; auto with nunca decresce.
  - intros s s1 nos nos' s2 _.
    apply (progride_bind (combinar ["VAR"])); [apply progride_combinar |].
    intro. decresce_tac.
  - intro nos. seguro_tac.
Qed.

Lemma seguro_programa n k : k + 1 < n -> seguro k (programa n).
Proof.
  intro Hk. unfold programa.
  assert (seguro k (secao_var n)) by (apply seguro_secao_var; lia).
  pose proof (seguro_declaracoes n k Hk).
  seguro_tac.
Qed.

Lemma seguro_analisar n k : k + 1 < n -> seguro k (analisar n).
Proof.
  intro Hk. unfold analisar.
  apply seguro_bind;
    [apply seguro_programa, Hk | unfold programa; decresce_tac |].
  intros raiz s _. discriminate.
Qed.

(** The parser returns or raises on every token list: the counter
    [fuel_for] never runs out. *)
Lemma executar_termina toks : fst (parse toks) <> OutOfFuel.
Proof.
  unfold parse, executar, fuel_for. destruct toks as [| t resto]; simpl.
  - discriminate.
  - apply (seguro_analisar _ (S (List.length resto))); [lia |].
    unfold size. simpl. lia.
Qed.

(** ** A larger counter changes nothing *)

Lemma estende_refl {A} (m : M A) : estende m m.
Proof. intros s r s' E _. exact E. Qed.

Lemma estende_bind {A B} (m m' : M A) (f f' : A -> M B) :
  estende m m' -> (forall a, estende (f a) (f' a)) ->
  estende (bind m f) (bind m' f').
Proof.
  intros Hm Hf s r s'. unfold bind.
  destruct (m s) as [[a | e |] s1] eqn:E.
  - rewrite (Hm _ _ _ E) by discriminate. apply Hf.
  - rewrite (Hm _ _ _ E) by discriminate. auto.
  - intros E' Hr. injection E' as <- _. contradiction.
Qed.

Lemma estende_ite {A} (b : bool) (m1 m1' m2 m2' : M A) :
  estende m1 m1' -> estende m2 m2' ->
  estende (if b then m1 else m2) (if b then m1' else m2').
Proof. destruct b; auto. Qed.

Lemma estende_out_of_fuel {A} (m : M A) : estende out_of_fuel m.
Proof. intros s r s' E Hr. injection E as <- _. contradiction. Qed.

Lemma estende_while {A} cond (body body' : A -> M A) :
  (forall a, estende (body a) (body' a)) ->
  forall n n', n <= n' ->
  forall a, estende (while_ n cond body a) (while_ n' cond body' a).
Proof.
  intro Hb. induction n as [| n IH]; intros n' Hn a.
  - apply estende_out_of_fuel.
  - destruct n' as [| n']; [lia |]. simpl.
    apply estende_bind; [apply estende_refl | intros [|]].
    + apply estende_bind; [apply Hb | intro; apply IH; lia].
    + apply estende_refl.
Qed.

Ltac estende_tac :=
  repeat first
    [ assumption
    | apply estende_refl
    | apply estende_bind; [| intro]
    | apply estende_ite
    | apply estende_while; [intro | lia] ].

Lemma estende_fator_ rec rec' :
  estende rec rec' -> estende (fator_ rec) (fator_ rec').
Proof. intro H. unfold fator_. estende_tac. Qed.

Lemma estende_nivel n n' op sub sub' :
  n <= n' -> estende sub sub' -> estende (nivel n op sub) (nivel n' op sub').
Proof. intros Hn H. unfold nivel, laco. estende_tac. Qed.

Lemma estende_expr_ n n' rec rec' :
  n <= n' -> estende rec rec' -> estende (expr_ n rec) (expr_ n' rec').
Proof.
  intros Hn H. rewrite !expr_nivel, !expr_simples_nivel, !termo_nivel.
  repeat (apply estende_nivel; [exact Hn |]).
  apply estende_fator_, H.
Qed.

Lemma estende_expr n : forall n', n <= n' -> estende (expr n) (expr n').
Proof.
  induction n as [| n IH]; intros n' Hn.
  - apply estende_out_of_fuel.
  - destruct n' as [| n']; [lia |]. simpl.
    apply estende_expr_; [lia | apply IH; lia].
Qed.

Lemma estende_atribuicao n n' :
  n <= n' -> estende (atribuicao n) (atribuicao n').
Proof.
  intro Hn. pose proof (estende_expr n n' Hn).
  unfold atribuicao. estende_tac.
Qed.

Lemma estende_decl_print n n' :
  n <= n' -> estende (decl_print n) (decl_print n').
Proof.
  intro Hn. pose proof (estende_expr n n' Hn).
  unfold decl_print. estende_tac.
Qed.

Lemma estende_decl_if_ n n' rec rec' :
  n <= n' -> estende rec rec' ->
  estende (decl_if_ n rec) (decl_if_ n' rec').
Proof.
  intros Hn H. pose proof (estende_expr n n' Hn).
  unfold decl_if_. estende_tac.
Qed.

Lemma estende_decl_while_ n n' rec rec' :
  n <= n' -> estende rec rec' ->
  estende (decl_while_ n rec) (decl_while_ n' rec').
Proof.
  intros Hn H. pose proof (estende_expr n n' Hn).
  unfold decl_while_. estende_tac.
Qed.

Lemma estende_declaracoes_ n n' rec rec' :
  n <= n' -> estende rec rec' ->
  estende (declaracoes_ n rec) (declaracoes_ n' rec').
Proof.
  intros Hn H.
  pose proof (estende_atribuicao n n' Hn).
  pose proof (estende_decl_print n n' Hn).
  pose proof (estende_decl_if_ n n' rec rec' Hn H).
  pose proof (estende_decl_while_ n n' rec rec' Hn H).
  unfold declaracoes_. estende_tac.
Qed.

Lemma estende_declaracoes n :
  forall n', n <= n' -> estende (declaracoes n) (declaracoes n').
Proof.
  induction n as [| n IH]; intros n' Hn.
  - apply estende_out_of_fuel.
  - destruct n' as [| n']; [lia |]. simpl.
    apply estende_declaracoes_; [lia | apply IH; lia].
Qed.

Lemma estende_secao_var n n' :
  n <= n' -> estende (secao_var n) (secao_var n').
Proof. intro Hn. unfold secao_var. estende_tac. Qed.

Lemma estende_programa n n' : n <= n' -> estende (programa n) (programa n').
Proof.
  intro Hn. pose proof (estende_secao_var n n' Hn).
  pose proof (estende_declaracoes n n' Hn).
  unfold programa. estende_tac.
Qed.

Lemma estende_analisar n n' : n <= n' -> estende (analisar n) (analisar n').
Proof.
  intro Hn. pose proof (estende_programa n n' Hn).
  unfold analisar. estende_tac.
Qed.

(** ** One turn of a binary level *)

Lemma bind_ok {A B} (m : M A) (f : A -> M B) s a s' :
  m s = (Ok a, s') -> bind m f s = f a s'.
Proof. intro E. unfold bind. rewrite E. reflexivity. Qed.

(** The lookahead is not the operator of the level: the loop ends. *)
Lemma laco_sai n op sub a s tok :
  token_atual s = Some tok -> String.eqb (fst tok) op = false ->
  laco (S n) op sub a s = (Ok a, s).
Proof.
  intros Ht Hk. unfold laco. simpl.
  unfold bind at 1, atual_e, bind, tipo_atual, ret. rewrite Ht, Hk.
  reflexivity.
Qed.

(** The lookahead is the operator of the level: it is consumed, the
    right operand is parsed and the node built so far goes to the left. *)
Lemma laco_entra n op sub a s v d s' :
  token_atual s = Some (op, v) -> sub (avancar s) = (Ok d, s') ->
  laco (S n) op sub a s = laco n op sub (binario a d (op, v)) s'.
Proof.
  intros Ht Hs. unfold laco at 1. simpl.
  unfold bind at 1, atual_e, bind at 1, tipo_atual, ret. rewrite Ht. simpl.
  rewrite String.eqb_refl.
  unfold bind at 1, bind at 1, combinar. rewrite Ht. unfold em. simpl.
  rewrite String.eqb_refl. simpl. unfold bind at 1. rewrite Hs. reflexivity.
Qed.

Lemma nivel_de n op sub s a s' :
  sub s = (Ok a, s') -> nivel n op sub s = laco n op sub a s'.
Proof. intro E. unfold nivel. apply bind_ok, E. Qed.

(** [fator] with no alternative for the lookahead. *)
Lemma fator_sem_alternativa rec s tok :
  token_atual s = Some tok ->
  em (fst tok) ["IDENTIFIER"; "NUMBER"; "LPAREN"; "TRUE"; "FALSE"] = false ->
  fator_ rec s = (Ok None, s).
Proof.
  intros Ht Hk. unfold em in Hk. simpl in Hk.
  repeat (apply orb_false_elim in Hk; destruct Hk as [? Hk]).
  unfold fator_, bind at 1, tipo_atual. rewrite Ht.
  repeat match goal with H : String.eqb _ _ = false |- _ =>
    rewrite H; clear H end.
  reflexivity.
Qed.

(** Any kind test on the end-of-input sentinel. *)
Lemma tipo_atual_none s :
  token_atual s = None -> tipo_atual s = (Raise TypeError, s).
Proof. intro H. unfold tipo_atual. rewrite H. reflexivity. Qed.

(** Every counter from [fuel_for] on gives the result of [parse]. *)
Lemma executar_estavel toks n :
  fuel_for toks <= n -> executar n toks = parse toks.
Proof.
  intro Hn. pose proof (executar_termina toks) as Ht.
  unfold parse, executar in *. destruct (init toks) as [[[] | e |] self];
    try reflexivity.
  destruct (analisar (fuel_for toks) self) as [r s'] eqn:E.
  apply (estende_analisar _ _ Hn _ _ _ E). exact Ht.
Qed.

Lemma parse_expr_termina toks : fst (parse_expr toks) <> OutOfFuel.
Proof.
  unfold parse_expr, executar_expr, fuel_for.
  destruct toks as [| t resto]; cbn [init].
  - discriminate.
  - apply (seguro_expr _ (S (List.length resto))); [simpl; lia |].
    unfold size. simpl. lia.
Qed.

Lemma executar_expr_estavel toks n :
  fuel_for toks <= n -> executar_expr n toks = parse_expr toks.
Proof.
  intro Hn. pose proof (parse_expr_termina toks) as Ht.
  unfold parse_expr, executar_expr in *.
  destruct (init toks) as [[[] | e |] self]; try reflexivity.
  destruct (expr (fuel_for toks) self) as [r s'] eqn:E.
  apply (estende_expr _ _ Hn _ _ _ E). exact Ht.
Qed.

(** After [init] the list has lost its first token. *)
Lemma init_tokens toks : tokens (snd (init toks)) = tl toks.
Proof. destruct toks; reflexivity. Qed.

(** The caller's list after [parse] is what is left of it. *)
Lemma parse_sufixo toks :
  exists l, tl toks = l ++ tokens (snd (parse toks)).
Proof.
  unfold parse, executar. rewrite <- init_tokens.
  destruct (init toks) as [[[] | e |] self]; simpl;
    try (exists []; reflexivity).
  apply (preserva_analisar sufixo sufixo_refl sufixo_trans sufixo_avancar
           sufixo_ast).
Qed.

End ParserFacts.

(* ================================================================== *)
(** * The tokenizer                                                    *)
(* ================================================================== *)

Section TokenizerClaims.
Import Regex Lexer LexerFacts.

(** The tokenizer returns on every source text. *)
Lemma tokenizer_returns src : exists toks, tokenizer src = Returns toks.
Proof. exists (tokenize src). reflexivity. Qed.

(** The example program of [an_parser.py] relies on the skipping: the
    quotation marks of [print("TRUE")] match no pattern. *)
Example print_string_literal :
  tokenize ("print(" ++ aspas ++ "TRUE" ++ aspas ++ ");") =
    [("PRINT", "print"); ("LPAREN", "("); ("IDENTIFIER", "TRUE");
     ("RPAREN", ")"); ("SEMICOLON", ";")].
Proof. reflexivity. Qed.

(** C1 as stated does not hold.  In ["x@y"] no pattern matches at the
    ["@"], yet the tokenizer does not fail with a [LexicalError]: it
    returns the two identifiers around it. *)
Lemma C1_lexical_error_counterexample :
  tokenizer "x@y" = Returns [("IDENTIFIER", "x"); ("IDENTIFIER", "y")] /\
  ~ ((exists i, sem_padrao "x@y" i) ->
     exists p c, tokenizer "x@y" = LexicalError p c).
Proof.
  split; [reflexivity |].
  intro H. destruct H as (p & c & E).
  - exists 1. split; [simpl; lia | reflexivity].
  - discriminate E.
Qed.

(** C2 as stated does not hold for comments: the comment ["/* a */"]
    comes out of the tokenizer as a [MULTILINE_COMMENT] token. *)
Lemma C2_comment_emitted_counterexample :
  tokenize "/* a */" = [("MULTILINE_COMMENT", "/* a */")] /\
  ~ (forall t, In t (tokenize "/* a */") ->
       fst t <> "WHITESPACE" /\ fst t <> "MULTILINE_COMMENT").
Proof.
  split; [reflexivity |].
  intro H. destruct (H ("MULTILINE_COMMENT", "/* a */")) as [_ Hc].
  - left. reflexivity.
  - apply Hc. reflexivity.
Qed.

(** C2, amended: for every source text the returned sequence is the
    sequence of matches without those of kind [WHITESPACE]; it holds no
    [WHITESPACE] token, and every other match, a comment included, is
    in it. *)
Theorem C2_only_whitespace_dropped (src : string) :
  tokenize src = filter emitido (finditer especificacoes_tokens src) /\
  Forall (fun t => fst t <> "WHITESPACE") (tokenize src) /\
  Forall (fun m => fst m = "MULTILINE_COMMENT" -> In m (tokenize src))
    (finditer especificacoes_tokens src).
Proof.
  pose proof (tokenize_filter src) as E. split; [exact E |].
  rewrite E. split; apply Forall_forall; intros t Ht.
  - apply filter_In in Ht. destruct Ht as [_ Ht]. unfold emitido in Ht.
    intro Hw. rewrite Hw in Ht. discriminate Ht.
  - intro Hk. apply filter_In. split; [exact Ht |].
    unfold emitido. rewrite Hk. reflexivity.
Qed.

(** C3 as stated does not hold for ["program"]: the keyword of the table
    is ["programa"], so ["program"] is an identifier. *)
Lemma C3_program_counterexample :
  tokenize "program" = [("IDENTIFIER", "program")] /\
  ~ (exists v, tokenize "program" = [("PROGRAM", v)]).
Proof.
  split; [reflexivity |]. intros [v H]. discriminate H.
Qed.

(** C3, amended: ["programa"] yields exactly one [PROGRAM] token, not an
    [IDENTIFIER]; ["program"] and ["programme"] each yield exactly one
    [IDENTIFIER] token with that text. *)
Theorem C3_keyword_and_identifier :
  tokenize "programa" = [("PROGRAM", "programa")] /\
  tokenize "program" = [("IDENTIFIER", "program")] /\
  tokenize "programme" = [("IDENTIFIER", "programme")].
Proof. repeat split; reflexivity. Qed.

(** C9 as stated does not hold: the fragment does not tokenize to 17
    tokens. *)
Lemma C9_seventeen_tokens_counterexample :
  List.length (tokenize fragmento) <> 17.
Proof. vm_compute. discriminate. Qed.

(** C9, amended: the fragment
    ["var x:int; x=10; if (x == 10) { print(x); }"] tokenizes to exactly
    22 tokens. *)
Theorem C9_fragment_tokens :
  tokenize fragmento =
    [("VAR", "var"); ("IDENTIFIER", "x"); ("COLON", ":"); ("INT", "int");
     ("SEMICOLON", ";");
     ("IDENTIFIER", "x"); ("ASSIGN", "="); ("NUMBER", "10");
     ("SEMICOLON", ";");
     ("IF", "if"); ("LPAREN", "("); ("IDENTIFIER", "x"); ("REL_OP", "==");
     ("NUMBER", "10"); ("RPAREN", ")");
     ("LBRACE", "{"); ("PRINT", "print"); ("LPAREN", "(");
     ("IDENTIFIER", "x"); ("RPAREN", ")"); ("SEMICOLON", ";");
     ("RBRACE", "}")] /\
  List.length (tokenize fragmento) = 22.
Proof. split; reflexivity. Qed.

End TokenizerClaims.

(* ================================================================== *)
(** * The parser                                                       *)
(* ================================================================== *)

Section ParserClaims.
Import Lexer Parser ParserFacts.

Lemma em_operadores k :
  em k operadores = false ->
  String.eqb k "MUL_OP" = false /\ String.eqb k "ADD_OP" = false /\
  String.eqb k "REL_OP" = false.
Proof.
  unfold em, operadores. simpl. intro H.
  apply orb_false_elim in H. destruct H as [H1 H].
  apply orb_false_elim in H. destruct H as [H2 H].
  apply orb_false_elim in H. destruct H as [H3 _]. auto.
Qed.

Lemma tokens_10_3_2 :
  tokenize "10 - 3 - 2" =
    [("NUMBER", "10"); ("ADD_OP", "-"); ("NUMBER", "3"); ("ADD_OP", "-");
     ("NUMBER", "2")].
Proof. reflexivity. Qed.

Lemma tokens_1_2_3 :
  tokenize "1 + 2 * 3" =
    [("NUMBER", "1"); ("ADD_OP", "+"); ("NUMBER", "2"); ("MUL_OP", "*");
     ("NUMBER", "3")].
Proof. reflexivity. Qed.

Lemma expr_10_3_2 m rec t resto :
  em (fst t) operadores = false ->
  expr_ (S (S (S m))) rec
    {| tokens := [("ADD_OP", "-"); ("NUMBER", "3"); ("ADD_OP", "-");
                  ("NUMBER", "2"); t] ++ resto;
       token_atual := Some ("NUMBER", "10"); ast := None |} =
  (Ok arvore_10_3_2,
   {| tokens := resto; token_atual := Some t; ast := None |}).
Proof.
  intro H. apply em_operadores in H. destruct H as (H1 & H2 & H3).
  rewrite expr_nivel, expr_simples_nivel, termo_nivel.
  erewrite nivel_de; [apply laco_sai with (tok := t); [reflexivity | exact H3] |].
  erewrite nivel_de; [| reflexivity].
  erewrite laco_entra; [| reflexivity | reflexivity].
  erewrite laco_entra; [| reflexivity |].
  - apply laco_sai with (tok := t); [reflexivity | exact H2].
  - erewrite nivel_de; [| reflexivity].
    apply laco_sai with (tok := t); [reflexivity | exact H1].
Qed.

Lemma expr_1_2_3 m rec t resto :
  em (fst t) operadores = false ->
  expr_ (S (S m)) rec
    {| tokens := [("ADD_OP", "+"); ("NUMBER", "2"); ("MUL_OP", "*");
                  ("NUMBER", "3"); t] ++ resto;
       token_atual := Some ("NUMBER", "1"); ast := None |} =
  (Ok arvore_1_2_3,
   {| tokens := resto; token_atual := Some t; ast := None |}).
Proof.
  intro H. apply em_operadores in H. destruct H as (H1 & H2 & H3).
  rewrite expr_nivel, expr_simples_nivel, termo_nivel.
  erewrite nivel_de; [apply laco_sai with (tok := t); [reflexivity | exact H3] |].
  erewrite nivel_de; [| reflexivity].
  erewrite laco_entra; [| reflexivity |].
  - apply laco_sai with (tok := t); [reflexivity | exact H2].
  - erewrite nivel_de; [| reflexivity].
    erewrite laco_entra; [| reflexivity | reflexivity].
    apply laco_sai with (tok := t); [reflexivity | exact H1].
Qed.

(** The example program of the repository is accepted. *)
Example exemplo_aceito : fst (parse (tokenize codigo_exemplo)) = Ok tt.
Proof. vm_compute. reflexivity. Qed.

(** ** C7 and C8: shape of expression trees *)

(** With a token that is not an operator behind it, ["10 - 3 - 2"] folds
    to the left: the loops of [expr_simples] build [(10 - 3) - 2] and
    stop in front of that token. *)
Lemma subtraction_folds_left_before (t : token) (resto : list token) :
  em (fst t) operadores = false ->
  parse_expr (tokenize "10 - 3 - 2" ++ t :: resto) =
    (Ok arvore_10_3_2,
     {| tokens := resto; token_atual := Some t; ast := None |}).
Proof.
  intro H. rewrite tokens_10_3_2.
  unfold parse_expr, executar_expr, fuel_for.
  cbn [init app List.length Nat.add expr].
  apply expr_10_3_2, H.
Qed.

(** With a token that is not an operator behind it, ["1 + 2 * 3"] nests
    the product in the sum. *)
Lemma multiplication_nests_before (t : token) (resto : list token) :
  em (fst t) operadores = false ->
  parse_expr (tokenize "1 + 2 * 3" ++ t :: resto) =
    (Ok arvore_1_2_3,
     {| tokens := resto; token_atual := Some t; ast := None |}).
Proof.
  intro H. rewrite tokens_1_2_3.
  unfold parse_expr, executar_expr, fuel_for.
  cbn [init app List.length Nat.add expr].
  apply expr_1_2_3, H.
Qed.

(** C7 on the code: parsing the tokens of ["10 - 3 - 2"] as an
    expression returns no node.  The three operands and the two operators
    are consumed, [combinar] sets the lookahead to [None] after the last
    operand, and the loop test [self.token_atual[0] == "MUL_OP"] of
    [termo] subscripts it: the call ends in [TypeError] with nothing left
    to read.  The left fold itself is what the loops build: as soon as one
    more token follows (here [;]), the result is the [-] node whose left
    child is the [-] node over [10] and [3] and whose right child is
    [2]. *)
Theorem C7_bare_sequence_type_error :
  parse_expr (tokenize "10 - 3 - 2") = (Raise TypeError, fim) /\
  (forall no s, parse_expr (tokenize "10 - 3 - 2") <> (Ok no, s)) /\
  parse_expr (tokenize "10 - 3 - 2;") =
    (Ok arvore_10_3_2,
     {| tokens := []; token_atual := Some ("SEMICOLON", ";"); ast := None |}).
Proof.
  split; [reflexivity |]. split; [| reflexivity].
  intros no s H. discriminate H.
Qed.

(** C8 on the code: parsing the tokens of ["1 + 2 * 3"] as an expression
    returns no node.  After the last operand [3] the lookahead is [None]
    and the loop test of [termo] subscripts it: the call ends in
    [TypeError].  The nesting itself is what the productions build: as
    soon as one more token follows (here [;]), the result is the [+] node
    whose left child is [1] and whose right child is the [*] node over
    [2] and [3]. *)
Theorem C8_bare_sequence_type_error :
  parse_expr (tokenize "1 + 2 * 3") = (Raise TypeError, fim) /\
  (forall no s, parse_expr (tokenize "1 + 2 * 3") <> (Ok no, s)) /\
  parse_expr (tokenize "1 + 2 * 3;") =
    (Ok arvore_1_2_3,
     {| tokens := []; token_atual := Some ("SEMICOLON", ";"); ast := None |}).
Proof.
  split; [reflexivity |]. split; [| reflexivity].
  intros no s H. discriminate H.
Qed.

(** Inside a program both expressions are followed by a [;]. *)
Example atribuicoes_no_programa :
  option_map filhos_de
    (ast (snd (parse (tokenize
       "programa t { a = 10 - 3 - 2; b = 1 + 2 * 3; }")))) =
  Some
    [Some (mkNo "SECAO_VAR" [] SemFolha);
     Some (mkNo "DECLARACOES"
             [Some (mkNo "ATRIBUICAO" [arvore_10_3_2] (FolhaStr "a"));
              Some (mkNo "ATRIBUICAO" [arvore_1_2_3] (FolhaStr "b"))]
             SemFolha)].
Proof. reflexivity. Qed.

(** ** C4: [fator] without an alternative *)

Lemma fator_falls_through n s tok :
  token_atual s = Some tok ->
  em (fst tok) ["IDENTIFIER"; "NUMBER"; "LPAREN"; "TRUE"; "FALSE"] = false ->
  fator n s = (Ok None, s).
Proof. apply fator_sem_alternativa. Qed.

(** C4 on the code: with the lookahead [;], as in the assignment
    [x = ;], [fator] raises nothing; it returns [None] and leaves the
    parser where it was, and the program is accepted with an [ATRIBUICAO]
    node whose only child is [None]. *)
Theorem C4_fator_returns_none :
  (forall n,
     fator n diante_do_ponto_e_virgula = (Ok None, diante_do_ponto_e_virgula)) /\
  parse (tokenize "programa t { x = ; }") =
    (Ok tt,
     {| tokens := []; token_atual := None;
        ast := Some (mkNo "PROGRAMA"
                 [Some (mkNo "SECAO_VAR" [] SemFolha);
                  Some (mkNo "DECLARACOES"
                          [Some (mkNo "ATRIBUICAO" [None] (FolhaStr "x"))]
                          SemFolha)]
                 (FolhaStr "t")) |}).
Proof.
  split; [| reflexivity].
  intro n. apply fator_falls_through with (tok := ("SEMICOLON", ";"));
    reflexivity.
Qed.

(** ** C5: the empty token list *)

(** C5 on the code: on the empty list the constructor's [pop(0)] raises
    [IndexError]; no [SyntaxError] is raised, whatever the counter. *)
Theorem C5_empty_list_index_error :
  init [] = (Raise IndexError, fim) /\
  parse [] = (Raise IndexError, fim) /\
  (forall n, executar n [] = (Raise IndexError, fim)) /\
  (forall inesperado, fst (parse []) <> Raise (SyntaxError inesperado)).
Proof. repeat split. discriminate. Qed.

(** ** C6: the caller's list *)

(** C6 as stated does not hold: after a successful parse of
    ["programa x { }"] the caller's list is empty. *)
Lemma C6_list_unchanged_counterexample :
  fst (parse (tokenize "programa x { }")) = Ok tt /\
  tokens (snd (parse (tokenize "programa x { }"))) = [] /\
  tokens (snd (parse (tokenize "programa x { }"))) <>
    tokenize "programa x { }".
Proof. repeat split. discriminate. Qed.

(** C6, amended: parsing consumes the caller's list from its front.  For
    every non-empty token list, after the parser has been built and run
    to its end, be it success or error, the caller's list is the original
    one without a non-empty prefix: the constructor pops the first token
    and each [combinar] that succeeds pops one more; the tokens that
    remain are the original ones, in their order. *)
Theorem C6_list_consumed_from_front (toks : list token) :
  toks <> [] ->
  exists consumidos,
    consumidos <> [] /\ toks = consumidos ++ tokens (snd (parse toks)).
Proof.
  intro Hne. destruct toks as [| t resto]; [contradiction |].
  destruct (parse_sufixo (t :: resto)) as [l Hl]. simpl in Hl.
  exists (t :: l). split; [discriminate |].
  simpl. rewrite <- Hl. reflexivity.
Qed.

Lemma C6_list_consumed_from_front_witness :
  tokenize "programa x {" <> [] /\
  exists consumidos,
    consumidos <> [] /\
    tokenize "programa x {" =
      consumidos ++ tokens (snd (parse (tokenize "programa x {"))).
Proof.
  assert (H : tokenize "programa x {" <> []) by discriminate.
  split; [exact H |].
  exact (C6_list_consumed_from_front (tokenize "programa x {") H).
Defined.

(** ** C10: a program cut short *)

(** C10: the tokens of ["programa x {"] are a non-empty strict prefix
    of a valid program (one more [}] completes it).  On them the third
    [combinar] exhausts the list and sets the lookahead to [None], the
    loop test of [secao_var] then subscripts [None], and the parse ends
    in a [TypeError], not a [SyntaxError]. *)
Theorem C10_cut_short_type_error :
  exists toks resto,
    toks = tokenize "programa x {" /\
    toks <> [] /\ resto <> [] /\
    fst (parse (toks ++ resto)) = Ok tt /\
    (combinar ["PROGRAM"] ;;; combinar ["IDENTIFIER"] ;;; combinar ["LBRACE"])
      (snd (init toks)) = (Ok ("LBRACE", "{"), fim) /\
    (forall n, secao_var (S n) fim = (Raise TypeError, fim)) /\
    parse toks = (Raise TypeError, fim) /\
    (forall inesperado, fst (parse toks) <> Raise (SyntaxError inesperado)).
Proof.
  exists (tokenize "programa x {"), [("RBRACE", "}")].
  repeat split; try discriminate.
Qed.

End ParserClaims.

(* ================================================================== *)
(** * More on the parser                                               *)
(* ================================================================== *)

Module ParserMore.
Import Lexer Parser ParserFacts ParserNotions.

(** ** The remaining input *)

Lemma resta_refl s : resta s s.
Proof. exists []. reflexivity. Qed.

Lemma resta_trans a b c : resta a b -> resta b c -> resta a c.
Proof.
  intros [l1 H1] [l2 H2]. exists (l1 ++ l2).
  rewrite H1, H2. apply app_assoc.
Qed.

Lemma entrada_avancar s :
  entrada (avancar s) =
    match token_atual s with Some _ => tokens s | None => entrada s end.
Proof.
  unfold entrada, avancar.
  destruct (tokens s) as [| t r], (token_atual s); reflexivity.
Qed.

Lemma resta_avancar s : resta s (avancar s).
Proof.
  unfold resta. rewrite entrada_avancar. unfold entrada.
  destruct (token_atual s) as [t |].
  - exists [t]. reflexivity.
  - exists []. reflexivity.
Qed.

Lemma resta_ast s a :
  resta s {| tokens := tokens s; token_atual := token_atual s; ast := a |}.
Proof. exists []. reflexivity. Qed.

Lemma mantem_forma_refl s : mantem_forma s s.
Proof. intro H. exact H. Qed.

Lemma mantem_forma_trans a b c :
  mantem_forma a b -> mantem_forma b c -> mantem_forma a c.
Proof. unfold mantem_forma. auto. Qed.

Lemma bem_formado_avancar s : bem_formado (avancar s).
Proof.
  unfold bem_formado, avancar. destruct (tokens s); simpl;
    [reflexivity | discriminate].
Qed.

Lemma mantem_forma_avancar s : mantem_forma s (avancar s).
Proof. intros _. apply bem_formado_avancar. Qed.

Lemma mantem_forma_ast s a :
  mantem_forma s
    {| tokens := tokens s; token_atual := token_atual s; ast := a |}.
Proof. intro H. exact H. Qed.

Lemma resta_analisar n : preserva resta (analisar n).
Proof.
  apply preserva_analisar;
    [exact resta_refl | exact resta_trans | exact resta_avancar
    | exact resta_ast].
Qed.

Lemma forma_analisar n : preserva mantem_forma (analisar n).
Proof.
  apply preserva_analisar;
    [exact mantem_forma_refl | exact mantem_forma_trans
    | exact mantem_forma_avancar | exact mantem_forma_ast].
Qed.

(** ** Where an exception leaves the object *)

Lemma situado_ret {A} (a : A) : erro_situado (ret a).
Proof. intros s e s' E. discriminate E. Qed.

Lemma situado_out_of_fuel {A} : erro_situado (@out_of_fuel A).
Proof. intros s e s' E. discriminate E. Qed.

Lemma situado_bind {A B} (m : M A) (f : A -> M B) :
  erro_situado m -> (forall a, erro_situado (f a)) ->
  erro_situado (bind m f).
Proof.
  intros Hm Hf s e s'. unfold bind.
  destruct (m s) as [[a | e1 |] s1] eqn:E.
  - apply Hf.
  - intro E'. injection E' as <- <-. apply (Hm _ _ _ E).
  - discriminate.
Qed.

Lemma situado_ite {A} (b : bool) (m1 m2 : M A) :
  erro_situado m1 -> erro_situado m2 ->
  erro_situado (if b then m1 else m2).
Proof. destruct b; auto. Qed.

Lemma situado_while {A} n cond (body : A -> M A) :
  erro_situado cond -> (forall a, erro_situado (body a)) ->
  forall a, erro_situado (while_ n cond body a).
Proof.
  intros Hc Hb. induction n as [| n IH]; intro a; simpl.
  - apply situado_out_of_fuel.
  - apply situado_bind; [exact Hc |].
    intros [|]; [| apply situado_ret].
    apply situado_bind; auto.
Qed.

Lemma situado_tipo_atual : erro_situado tipo_atual.
Proof.
  intros s e s'. unfold tipo_atual.
  destruct (token_atual s) eqn:Et; [discriminate |].
  intro E. injection E as <- <-. exact Et.
Qed.

Lemma situado_combinar tipos : erro_situado (combinar tipos).
Proof.
  intros s e s'. unfold combinar.
  destruct (token_atual s) as [tok |] eqn:Et.
  - destruct (em (fst tok) tipos); [discriminate |].
    intro E. injection E as <- <-. exact Et.
  - intro E. injection E as <- <-. exact Et.
Qed.

Ltac situado_tac :=
  repeat first
    [ assumption
    | apply situado_ret
    | apply situado_tipo_atual
    | apply situado_combinar
    | apply situado_bind; [| intro]
    | apply situado_ite
    | apply situado_while; [| intro] ].

Lemma situado_atual_e tipo : erro_situado (atual_e tipo).
Proof. unfold atual_e. situado_tac. Qed.

Lemma situado_atual_em tipos : erro_situado (atual_em tipos).
Proof. unfold atual_em. situado_tac. Qed.

Lemma situado_expr_ n rec : erro_situado rec -> erro_situado (expr_ n rec).
Proof.
  intro H. pose proof situado_atual_e.
  unfold expr_, expr_simples_, termo_, fator_. situado_tac.
Qed.

Lemma situado_expr n : erro_situado (expr n).
Proof.
  induction n as [| n IH]; simpl.
  - apply situado_out_of_fuel.
  - apply situado_expr_, IH.
Qed.

Lemma situado_declaracoes_ n rec :
  erro_situado rec -> erro_situado (declaracoes_ n rec).
Proof.
  intro H. pose proof situado_atual_e. pose proof situado_atual_em.
  pose proof (situado_expr n).
  unfold declaracoes_, atribuicao, decl_if_, decl_while_, decl_print.
  situado_tac.
Qed.

Lemma situado_declaracoes n : erro_situado (declaracoes n).
Proof.
  induction n as [| n IH]; simpl.
  - apply situado_out_of_fuel.
  - apply situado_declaracoes_, IH.
Qed.

Lemma situado_analisar n : erro_situado (analisar n).
Proof.
  pose proof situado_atual_e. pose proof (situado_declaracoes n).
  unfold analisar, programa, secao_var. situado_tac.
  intros s e s' E. discriminate E.
Qed.

(** What [parse] does after a successful [__init__]. *)
Lemma parse_cons t resto :
  parse (t :: resto) =
    analisar (fuel_for (t :: resto))
      {| tokens := resto; token_atual := Some t; ast := None |}.
Proof. reflexivity. Qed.

(** ** How a parse can fail *)

(** X1: a [SyntaxError] names the exact place of the failure.  When the
    parser raises [SyntaxError] with token [t], the input list is the
    tokens read so far, then [t], then what the caller's list still
    holds: [t] is a token of the input, everything before it was
    accepted, and nothing after it was touched. *)
Theorem syntax_error_position (toks : list token) (t : token)
    (s : Analisador) :
  parse toks = (Raise (SyntaxError t), s) ->
  token_atual s = Some t /\
  exists lidos, toks = lidos ++ t :: tokens s.
Proof.
  destruct toks as [| t0 resto]; [discriminate |].
  rewrite parse_cons. intro E.
  pose proof (situado_analisar _ _ _ _ E) as Ht. simpl in Ht.
  split; [exact Ht |].
  pose proof (resta_analisar (fuel_for (t0 :: resto))
                {| tokens := resto; token_atual := Some t0; ast := None |})
    as [lidos Hl].
  rewrite E in Hl. unfold entrada in Hl. simpl in Hl. rewrite Ht in Hl.
  exists lidos. exact Hl.
Qed.

Lemma syntax_error_position_witness :
  parse (tokenize "programa p { var x int; }") =
    (Raise (SyntaxError ("INT", "int")),
     {| tokens := [("SEMICOLON", ";"); ("RBRACE", "}")];
        token_atual := Some ("INT", "int"); ast := None |}) /\
  token_atual
    {| tokens := [("SEMICOLON", ";"); ("RBRACE", "}")];
       token_atual := Some ("INT", "int"); ast := None |} =
    Some ("INT", "int") /\
  exists lidos,
    tokenize "programa p { var x int; }" =
      lidos ++ [("INT", "int"); ("SEMICOLON", ";"); ("RBRACE", "}")].
Proof.
  assert (H : parse (tokenize "programa p { var x int; }") =
    (Raise (SyntaxError ("INT", "int")),
     {| tokens := [("SEMICOLON", ";"); ("RBRACE", "}")];
        token_atual := Some ("INT", "int"); ast := None |}))
    by reflexivity.
  split; [exact H |].
  exact (syntax_error_position _ _ _ H).
Defined.

(** X2: a [TypeError] means that the input ran out.  When the parser
    raises [TypeError], the token list was not empty, all of it has been
    consumed and the lookahead is [None]; with a token still to read the
    parser never raises [TypeError]. *)
Theorem type_error_only_at_end (toks : list token) (s : Analisador) :
  parse toks = (Raise TypeError, s) ->
  toks <> [] /\ token_atual s = None /\ tokens s = [].
Proof.
  destruct toks as [| t0 resto]; [discriminate |].
  rewrite parse_cons. intro E. split; [discriminate |].
  pose proof (situado_analisar _ _ _ _ E) as Ht. simpl in Ht.
  split; [exact Ht |].
  pose proof (forma_analisar (fuel_for (t0 :: resto))
                {| tokens := resto; token_atual := Some t0; ast := None |})
    as Hf.
  rewrite E in Hf. simpl in Hf. apply Hf; [| exact Ht].
  unfold bem_formado. simpl. discriminate.
Qed.

Lemma type_error_only_at_end_witness :
  parse (tokenize "programa p { x = 1") = (Raise TypeError, fim) /\
  tokenize "programa p { x = 1" <> [] /\
  token_atual fim = None /\ tokens fim = [].
Proof.
  assert (H : parse (tokenize "programa p { x = 1") = (Raise TypeError, fim))
    by reflexivity.
  split; [exact H |].
  exact (type_error_only_at_end _ _ H).
Defined.

(** X3: [IndexError] is the outcome of the empty token list and of no
    other: the only unguarded [pop(0)] is the one of the constructor. *)
Theorem index_error_iff_empty (toks : list token) :
  fst (parse toks) = Raise IndexError <-> toks = [].
Proof.
  split.
  - destruct toks as [| t0 resto]; [reflexivity |].
    rewrite parse_cons.
    destruct (analisar _ _) as [r s'] eqn:E. simpl. intros ->.
    apply situado_analisar in E. contradiction.
  - intros ->. reflexivity.
Qed.

(** ** Termination *)

(** X4: the parser terminates on every token list.  Every turn of a loop
    and every nested call of [expr] or [declaracoes] consumes a token
    first, so the counter [length toks + 2] never runs out, and any
    larger counter gives the same outcome and the same object. *)
Theorem parser_terminates (toks : list token) (n : nat) :
  fuel_for toks <= n ->
  fst (executar n toks) <> OutOfFuel /\ executar n toks = parse toks.
Proof.
  intro Hn. rewrite (executar_estavel toks n Hn).
  split; [apply executar_termina | reflexivity].
Qed.

Lemma parser_terminates_witness :
  fuel_for (tokenize codigo_exemplo) <= 1000 /\
  fst (executar 1000 (tokenize codigo_exemplo)) <> OutOfFuel /\
  executar 1000 (tokenize codigo_exemplo) = parse (tokenize codigo_exemplo).
Proof.
  assert (H : fuel_for (tokenize codigo_exemplo) <= 1000)
    by (vm_compute; repeat constructor).
  split; [exact H |].
  exact (parser_terminates (tokenize codigo_exemplo) 1000 H).
Defined.

(** ** What a successful parse has read and built *)

Lemma bind_ok_inv {A B} (m : M A) (f : A -> M B) s b s' :
  bind m f s = (Ok b, s') ->
  exists a s1, m s = (Ok a, s1) /\ f a s1 = (Ok b, s').
Proof.
  unfold bind. destruct (m s) as [[a | e |] s1]; try discriminate.
  intro E. exists a, s1. auto.
Qed.

Lemma ret_ok_inv {A} (a b : A) s s' : ret a s = (Ok b, s') -> b = a /\ s' = s.
Proof. unfold ret. intro E. injection E as <- <-. auto. Qed.

Lemma combinar_ok_inv tipos s tok s' :
  combinar tipos s = (Ok tok, s') ->
  token_atual s = Some tok /\ em (fst tok) tipos = true /\ s' = avancar s.
Proof.
  unfold combinar. destruct (token_atual s) as [t |]; [| discriminate].
  destruct (em (fst t) tipos) eqn:Em; [| discriminate].
  intro E. injection E as <- <-. auto.
Qed.

Lemma em_um k x : em k [x] = true -> k = x.
Proof.
  unfold em. simpl. rewrite orb_false_r. apply String.eqb_eq.
Qed.

(** A loop keeps what its body keeps. *)
Lemma while_inv {A} (P : A -> Prop) cond (body : A -> M A) :
  (forall a s a' s', P a -> body a s = (Ok a', s') -> P a') ->
  forall n a s r s',
    P a -> while_ n cond body a s = (Ok r, s') -> P r.
Proof.
  intro Hb. induction n as [| n IH]; intros a s r s' Ha; simpl.
  - discriminate.
  - intro E. apply bind_ok_inv in E. destruct E as ([|] & s1 & _ & E).
    + apply bind_ok_inv in E. destruct E as (a' & s2 & Eb & E).
      apply (IH a' s2 r s'); [| exact E]. apply (Hb a s1 a' s2 Ha Eb).
    + apply ret_ok_inv in E. destruct E as [-> _]. exact Ha.
Qed.

Ltac inv_ok :=
  repeat match goal with
  | H : bind _ _ _ = (Ok _, _) |- _ =>
      apply bind_ok_inv in H; destruct H as (? & ? & ? & H)
  | H : ret _ _ = (Ok _, _) |- _ =>
      apply ret_ok_inv in H; destruct H as [? ?]
  end.

Lemma secao_var_ok n s sv s' :
  secao_var n s = (Ok sv, s') ->
  exists nos, sv = mkNo "SECAO_VAR" nos SemFolha /\ Forall decl_var nos.
Proof.
  unfold secao_var. intro E. inv_ok. subst.
  eexists. split; [reflexivity |].
  revert H. apply while_inv; [| constructor].
  intros a s0 a' s0' Ha Eb. inv_ok. subst.
  apply Forall_app. split; [exact Ha |].
  constructor; [| constructor].
  match goal with H : combinar ["INT"; "FLOAT"; "BOOL"] _ = _ |- _ =>
    apply combinar_ok_inv in H; destruct H as (_ & Hem & _) end.
  eexists _, _. split; [reflexivity | exact Hem].
Qed.

Lemma declaracoes_ok n : forall s ds s',
  declaracoes n s = (Ok ds, s') ->
  exists nos, ds = mkNo "DECLARACOES" nos SemFolha /\ Forall declaracao nos.
Proof.
  destruct n as [| n]; intros s ds s'; simpl; [discriminate |].
  unfold declaracoes_. intro E. inv_ok. subst.
  eexists. split; [reflexivity |].
  revert H. apply while_inv; [| constructor].
  intros a s0 a' s0' Ha Eb. apply bind_ok_inv in Eb.
  destruct Eb as (k & s1 & _ & Eb).
  assert (Hd : forall d, tipo_de d = "ATRIBUICAO" \/ tipo_de d = "DECL_IF" \/
                         tipo_de d = "DECL_WHILE" \/ tipo_de d = "DECL_PRINT" ->
                         Forall declaracao (a ++ [Some d])).
  { intros d Hd. apply Forall_app. split; [exact Ha |].
    constructor; [| constructor]. exists d. split; [reflexivity |].
    destruct Hd as [-> | [-> | [-> | ->]]]; reflexivity. }
  destruct (String.eqb k "IDENTIFIER").
  { unfold atribuicao in Eb. inv_ok. subst. apply Hd. auto. }
  destruct (String.eqb k "IF").
  { unfold decl_if_ in Eb. inv_ok. subst. apply Hd. auto. }
  destruct (String.eqb k "WHILE").
  { unfold decl_while_ in Eb. inv_ok. subst. apply Hd. auto. }
  destruct (String.eqb k "PRINT").
  { unfold decl_print in Eb. inv_ok. subst. apply Hd. auto. }
  apply ret_ok_inv in Eb. destruct Eb as [-> _]. exact Ha.
Qed.

(** X5: what a successful parse guarantees.  The token list starts with
    a [PROGRAM] token, an [IDENTIFIER] and an [LBRACE]; the tree stored in
    [ast] is a [PROGRAMA] node labelled with the text of that identifier,
    with exactly two children: a [SECAO_VAR] node whose children are all
    [DECL_VAR] leaves of type [INT], [FLOAT] or [BOOL], and a
    [DECLARACOES] node whose children are all statement nodes. *)
Theorem successful_parse_shape (toks : list token) (s : Analisador) :
  parse toks = (Ok tt, s) ->
  exists v1 nome v3 resto vars decls,
    toks = ("PROGRAM", v1) :: ("IDENTIFIER", nome) :: ("LBRACE", v3) :: resto /\
    ast s = Some (mkNo "PROGRAMA"
                    [Some (mkNo "SECAO_VAR" vars SemFolha);
                     Some (mkNo "DECLARACOES" decls SemFolha)]
                    (FolhaStr nome)) /\
    Forall decl_var vars /\ Forall declaracao decls.
Proof.
  destruct toks as [| t0 resto]; [discriminate |].
  rewrite parse_cons. unfold analisar, programa. intro E.
  apply bind_ok_inv in E. destruct E as (raiz & s1 & E & Ef).
  injection Ef as <-. inv_ok. subst.
  repeat match goal with H : combinar _ _ = (Ok _, _) |- _ =>
    apply combinar_ok_inv in H; destruct H as (? & ? & ?) end.
  subst.
  match goal with H : secao_var _ _ = _ |- _ =>
    apply secao_var_ok in H; destruct H as (vars & -> & Hv) end.
  match goal with H : declaracoes _ _ = _ |- _ =>
    apply declaracoes_ok in H; destruct H as (decls & -> & Hd) end.
  repeat match goal with H : em _ [_] = true |- _ => apply em_um in H end.
  simpl in *.
  repeat match goal with H : Some _ = Some _ |- _ =>
    injection H as <- end.
  destruct resto as [| [k2 nome] [| [k3 v3] resto]]; simpl in *;
    try discriminate.
  repeat match goal with H : Some _ = Some _ |- _ =>
    injection H as <- end.
  simpl in *. subst.
  destruct t0 as [k1 v1]. simpl in *. subst.
  exists v1, nome, v3, resto, vars, decls. auto.
Qed.

Lemma successful_parse_shape_witness :
  parse (tokenize "programa p { var x : int; x = 1; }") =
    (Ok tt, snd (parse (tokenize "programa p { var x : int; x = 1; }"))) /\
  exists v1 nome v3 resto vars decls,
    tokenize "programa p { var x : int; x = 1; }" =
      ("PROGRAM", v1) :: ("IDENTIFIER", nome) :: ("LBRACE", v3) :: resto /\
    ast (snd (parse (tokenize "programa p { var x : int; x = 1; }"))) =
      Some (mkNo "PROGRAMA"
              [Some (mkNo "SECAO_VAR" vars SemFolha);
               Some (mkNo "DECLARACOES" decls SemFolha)]
              (FolhaStr nome)) /\
    Forall decl_var vars /\ Forall declaracao decls.
Proof.
  assert (H : parse (tokenize "programa p { var x : int; x = 1; }") =
    (Ok tt, snd (parse (tokenize "programa p { var x : int; x = 1; }"))))
    by reflexivity.
  split; [exact H |].
  exact (successful_parse_shape _ _ H).
Defined.

(** ** Tokens after the closing brace *)

Ltac por_forma lema :=
  apply lema;
  first [ exact mantem_forma_refl | exact mantem_forma_trans
        | exact mantem_forma_avancar | exact mantem_forma_ast | assumption ].

Lemma forma_ret {A} (a : A) : preserva mantem_forma (ret a).
Proof. por_forma @preserva_ret. Qed.

Lemma forma_bind {A B} (m : M A) (f : A -> M B) :
  preserva mantem_forma m -> (forall a, preserva mantem_forma (f a)) ->
  preserva mantem_forma (bind m f).
Proof. intros Hm Hf. por_forma @preserva_bind. Qed.

Lemma forma_ite {A} (b : bool) (m1 m2 : M A) :
  preserva mantem_forma m1 -> preserva mantem_forma m2 ->
  preserva mantem_forma (if b then m1 else m2).
Proof. destruct b; auto. Qed.

Lemma forma_while {A} n cond (body : A -> M A) a :
  preserva mantem_forma cond -> (forall a, preserva mantem_forma (body a)) ->
  preserva mantem_forma (while_ n cond body a).
Proof. intros Hc Hb. por_forma @preserva_while. Qed.

Lemma forma_tipo_atual : preserva mantem_forma tipo_atual.
Proof. por_forma preserva_tipo_atual. Qed.

Lemma forma_combinar tipos : preserva mantem_forma (combinar tipos).
Proof. por_forma preserva_combinar. Qed.

Lemma forma_expr n : preserva mantem_forma (expr n).
Proof. por_forma preserva_expr. Qed.

Lemma forma_declaracoes n : preserva mantem_forma (declaracoes n).
Proof. por_forma preserva_declaracoes. Qed.

Ltac forma_tac :=
  repeat first
    [ assumption
    | apply forma_ret
    | apply forma_tipo_atual
    | apply forma_combinar
    | apply forma_expr
    | apply forma_declaracoes
    | apply forma_bind; [| intro]
    | apply forma_ite
    | apply forma_while; [| intro] ].

Lemma entrada_de_entrada l a : entrada (de_entrada l a) = l.
Proof. destruct l; reflexivity. Qed.

Lemma ast_de_entrada l a : ast (de_entrada l a) = a.
Proof. destruct l; reflexivity. Qed.

Lemma prolonga_some extra s t :
  token_atual s = Some t ->
  prolonga extra s =
    {| tokens := tokens s ++ extra; token_atual := Some t; ast := ast s |}.
Proof. intro H. unfold prolonga, entrada. rewrite H. reflexivity. Qed.

Lemma avancar_prolonga extra s t :
  token_atual s = Some t ->
  avancar (prolonga extra s) = prolonga extra (avancar s).
Proof.
  intro H. rewrite (prolonga_some _ _ _ H).
  unfold avancar at 1. simpl. unfold prolonga, avancar, entrada.
  destruct (tokens s) as [| t2 r]; simpl; [| reflexivity].
  destruct extra; reflexivity.
Qed.

Lemma local_ret {A} (a : A) : local (ret a).
Proof.
  intros extra s b s' _ E. apply ret_ok_inv in E. destruct E as [-> ->].
  reflexivity.
Qed.

Lemma local_tipo_atual : local tipo_atual.
Proof.
  intros extra s k s' _. unfold tipo_atual.
  destruct (token_atual s) as [t |] eqn:Et; [| discriminate].
  intro E. injection E as <- <-.
  rewrite (prolonga_some _ _ _ Et). simpl. reflexivity.
Qed.

Lemma local_combinar tipos : local (combinar tipos).
Proof.
  intros extra s tok s' _ E. apply combinar_ok_inv in E.
  destruct E as (Et & Hem & ->).
  rewrite <- (avancar_prolonga _ _ _ Et).
  unfold combinar. rewrite (prolonga_some _ _ _ Et) at 1. simpl.
  rewrite Hem. rewrite (prolonga_some _ _ _ Et). reflexivity.
Qed.

Lemma local_bind {A B} (m : M A) (f : A -> M B) :
  local m -> preserva mantem_forma m -> (forall a, local (f a)) ->
  local (bind m f).
Proof.
  intros Hm Hw Hf extra s b s' Hs E.
  apply bind_ok_inv in E. destruct E as (a & s1 & E1 & E2).
  unfold bind. rewrite (Hm extra _ _ _ Hs E1).
  apply Hf; [| exact E2].
  specialize (Hw s). rewrite E1 in Hw. apply Hw, Hs.
Qed.

Lemma local_ite {A} (b : bool) (m1 m2 : M A) :
  local m1 -> local m2 -> local (if b then m1 else m2).
Proof. destruct b; auto. Qed.

Lemma local_while {A} cond (body : A -> M A) :
  local cond -> preserva mantem_forma cond ->
  (forall a, local (body a)) -> (forall a, preserva mantem_forma (body a)) ->
  forall n a, local (while_ n cond body a).
Proof.
  intros Hc Hcw Hb Hbw. induction n as [| n IH]; intro a; simpl.
  - intros extra s b s' _ E. discriminate E.
  - apply local_bind; [exact Hc | exact Hcw |].
    intros [|]; [| apply local_ret].
    apply local_bind; auto.
Qed.

Ltac local_tac :=
  repeat first
    [ assumption
    | apply local_ret
    | apply local_tipo_atual
    | apply local_combinar
    | apply local_bind; [| solve [forma_tac] | intro]
    | apply local_ite
    | apply local_while; [| solve [forma_tac] | intro | intro; solve [forma_tac]] ].

Lemma local_expr_ n rec :
  local rec -> preserva mantem_forma rec -> local (expr_ n rec).
Proof.
  intros H Hw. unfold expr_, expr_simples_, termo_, fator_, atual_e.
  local_tac.
Qed.

Lemma local_expr n : local (expr n).
Proof.
  induction n as [| n IH]; simpl.
  - intros extra s b s' _ E. discriminate E.
  - apply local_expr_; [exact IH | apply forma_expr].
Qed.

Lemma local_declaracoes_ n rec :
  local rec -> preserva mantem_forma rec -> local (declaracoes_ n rec).
Proof.
  intros H Hw. pose proof (local_expr n).
  unfold declaracoes_, atribuicao, decl_if_, decl_while_, decl_print,
    atual_e, atual_em.
  local_tac.
Qed.

Lemma local_declaracoes n : local (declaracoes n).
Proof.
  induction n as [| n IH]; simpl.
  - intros extra s b s' _ E. discriminate E.
  - apply local_declaracoes_; [exact IH | apply forma_declaracoes].
Qed.

Lemma local_analisar n : local (analisar n).
Proof.
  pose proof (local_declaracoes n).
  unfold analisar, programa, secao_var, atual_e. local_tac.
  intros extra s [] s' _ E. injection E as <-.
  unfold prolonga, entrada. simpl.
  destruct (token_atual s); simpl; [reflexivity |].
  destruct (tokens s ++ extra); reflexivity.
Qed.

(** X6: tokens after the closing brace are ignored.  If a token list is
    accepted, the same list followed by any further tokens is accepted
    too, with the same tree; the parser stops where it stopped before and
    the further tokens are left unread. *)
Theorem trailing_tokens_ignored (toks extra : list token) (s : Analisador) :
  parse toks = (Ok tt, s) ->
  exists s2,
    parse (toks ++ extra) = (Ok tt, s2) /\
    ast s2 = ast s /\
    entrada s2 = entrada s ++ extra.
Proof.
  destruct toks as [| t0 resto]; [discriminate |].
  rewrite parse_cons. intro E.
  exists (prolonga extra s). split.
  - assert (Hn : fuel_for (t0 :: resto) <= fuel_for ((t0 :: resto) ++ extra)).
    { unfold fuel_for. rewrite length_app. lia. }
    assert (E' := estende_analisar _ _ Hn _ _ _ E).
    assert (Hr : Ok tt <> @OutOfFuel unit) by discriminate.
    specialize (E' Hr). clear E. rename E' into E.
    change (parse ((t0 :: resto) ++ extra)) with
      (analisar (fuel_for ((t0 :: resto) ++ extra))
         (prolonga extra
            {| tokens := resto; token_atual := Some t0; ast := None |})).
    apply local_analisar; [| exact E].
    unfold bem_formado. simpl. discriminate.
  - unfold prolonga. rewrite ast_de_entrada, entrada_de_entrada. auto.
Qed.

Lemma trailing_tokens_ignored_witness :
  parse (tokenize "programa p { }") = (Ok tt, snd (parse (tokenize "programa p { }"))) /\
  exists s2,
    parse (tokenize "programa p { }" ++ tokenize "} else 3") = (Ok tt, s2) /\
    ast s2 = ast (snd (parse (tokenize "programa p { }"))) /\
    entrada s2 =
      entrada (snd (parse (tokenize "programa p { }"))) ++ tokenize "} else 3".
Proof.
  assert (H : parse (tokenize "programa p { }") =
                (Ok tt, snd (parse (tokenize "programa p { }"))))
    by reflexivity.
  split; [exact H |].
  exact (trailing_tokens_ignored _ (tokenize "} else 3") _ H).
Defined.

(** ** Stepping through a known input *)

Lemma tipo_atual_de t l a :
  tipo_atual (de_entrada (t :: l) a) = (Ok (fst t), de_entrada (t :: l) a).
Proof. reflexivity. Qed.

Lemma atual_e_de tipo t l a :
  atual_e tipo (de_entrada (t :: l) a) =
    (Ok (String.eqb (fst t) tipo), de_entrada (t :: l) a).
Proof. reflexivity. Qed.

Lemma atual_em_de tipos t l a :
  atual_em tipos (de_entrada (t :: l) a) =
    (Ok (em (fst t) tipos), de_entrada (t :: l) a).
Proof. reflexivity. Qed.

Lemma combinar_de tipos t l a :
  em (fst t) tipos = true ->
  combinar tipos (de_entrada (t :: l) a) = (Ok t, de_entrada l a).
Proof.
  intro H. unfold combinar. simpl. rewrite H. reflexivity.
Qed.

Lemma while_S {A} n cond (body : A -> M A) a :
  while_ (S n) cond body a =
    (b <- cond ;;
     if b then a' <- body a ;; while_ n cond body a' else ret a).
Proof. reflexivity. Qed.

Lemma parse_de_entrada t resto :
  parse (t :: resto) =
    analisar (fuel_for (t :: resto)) (de_entrada (t :: resto) None).
Proof. reflexivity. Qed.

Ltac passo :=
  first
    [ erewrite bind_ok by
        first [ apply combinar_de; first [reflexivity | assumption]
              | apply tipo_atual_de | apply atual_e_de | apply atual_em_de ]
    | rewrite while_S ].

(** ** Programs made of declarations *)

Lemma secao_var_laco a0 t resto : forall decls n acc,
  List.length decls < n ->
  Forall tipo_valido decls ->
  String.eqb (fst t) "VAR" = false ->
  while_ n (atual_e "VAR")
    (fun nos =>
       combinar ["VAR"] ;;;
       identificador <- combinar ["IDENTIFIER"] ;;
       combinar ["COLON"] ;;;
       tipo <- combinar ["INT"; "FLOAT"; "BOOL"] ;;
       combinar ["SEMICOLON"] ;;;
       ret (nos ++ [Some (mkNo "DECL_VAR" []
                            (FolhaPar (snd identificador) (fst tipo)))]))
    acc (de_entrada (flat_map tokens_decl decls ++ t :: resto) a0) =
  (Ok (acc ++ map no_decl decls), de_entrada (t :: resto) a0).
Proof.
  induction decls as [| d decls IH]; intros n acc Hn Hv Ht;
    (destruct n as [| n]; [simpl in Hn; lia |]).
  - change (flat_map tokens_decl [] ++ t :: resto) with (t :: resto).
    repeat passo. rewrite Ht.
    simpl map. rewrite app_nil_r. reflexivity.
  - inversion Hv as [| ? ? Hd Hv']; subst.
    unfold tipo_valido in Hd.
    change (flat_map tokens_decl (d :: decls))
      with (tokens_decl d ++ flat_map tokens_decl decls).
    unfold tokens_decl at 1. cbn [app].
    repeat passo.
    change (String.eqb (fst ("VAR", "var")) "VAR") with true. cbv iota.
    erewrite bind_ok; [| repeat passo; reflexivity].
    rewrite IH; [| simpl in Hn; lia | exact Hv' | exact Ht].
    simpl map. rewrite <- app_assoc. reflexivity.
Qed.

Lemma declaracoes_vazia n t l a0 :
  em (fst t) ["IDENTIFIER"; "IF"; "WHILE"; "PRINT"] = false ->
  declaracoes (S (S n)) (de_entrada (t :: l) a0) =
    (Ok (mkNo "DECLARACOES" [] SemFolha), de_entrada (t :: l) a0).
Proof.
  intro H. cbn [declaracoes]. unfold declaracoes_.
  erewrite bind_ok; [| repeat passo; rewrite H; reflexivity].
  reflexivity.
Qed.

Lemma analisar_declaracoes nome decls a0 n :
  List.length decls < S (S n) ->
  Forall tipo_valido decls ->
  analisar (S (S n)) (de_entrada (programa_de nome decls) a0) =
    (Ok tt,
     {| tokens := []; token_atual := None;
        ast := Some (mkNo "PROGRAMA"
                 [Some (mkNo "SECAO_VAR" (map no_decl decls) SemFolha);
                  Some (mkNo "DECLARACOES" [] SemFolha)]
                 (FolhaStr nome)) |}).
Proof.
  intros Hn Hv.
  assert (Hp : programa (S (S n)) (de_entrada (programa_de nome decls) a0) =
    (Ok (mkNo "PROGRAMA"
           [Some (mkNo "SECAO_VAR" (map no_decl decls) SemFolha);
            Some (mkNo "DECLARACOES" [] SemFolha)]
           (FolhaStr nome)),
     de_entrada [] a0)).
  { unfold programa, programa_de. cbn [app].
    repeat passo.
    erewrite bind_ok;
      [| unfold secao_var;
         erewrite bind_ok; [| apply secao_var_laco; auto]; reflexivity].
    erewrite bind_ok; [| apply declaracoes_vazia; reflexivity].
    repeat passo. reflexivity. }
  unfold analisar. rewrite (bind_ok _ _ _ _ _ Hp). reflexivity.
Qed.

(** X7: declarations come back as written, and a program without
    statements is accepted.  For every program name and every list of
    declarations [var nome : tipo;] whose types are [int], [float] or
    [bool] tokens, the tokens of [programa nome { declarations }] are
    accepted and consumed to the last; the [SECAO_VAR] node has one
    [DECL_VAR] leaf per declaration, in order, carrying the name and the
    kind of the type token, and the [DECLARACOES] node has no child. *)
Theorem declarations_round_trip (nome : string)
    (decls : list (string * token)) :
  Forall tipo_valido decls ->
  parse (programa_de nome decls) =
    (Ok tt,
     {| tokens := []; token_atual := None;
        ast := Some (mkNo "PROGRAMA"
                 [Some (mkNo "SECAO_VAR" (map no_decl decls) SemFolha);
                  Some (mkNo "DECLARACOES" [] SemFolha)]
                 (FolhaStr nome)) |}).
Proof.
  intro Hv. unfold programa_de at 1. simpl app.
  rewrite parse_de_entrada.
  change (("PROGRAM", "programa") :: ("IDENTIFIER", nome) :: ("LBRACE", "{")
          :: flat_map tokens_decl decls ++ [("RBRACE", "}")])
    with (programa_de nome decls).
  unfold fuel_for. rewrite Nat.add_comm. simpl Nat.add.
  apply analisar_declaracoes; [| exact Hv].
  unfold programa_de. rewrite !length_app. simpl List.length.
  assert (List.length decls <= List.length (flat_map tokens_decl decls)).
  { clear. induction decls as [| d decls IH]; simpl; lia. }
  lia.
Qed.

Lemma declarations_round_trip_witness :
  Forall tipo_valido [("x", ("INT", "int")); ("y", ("BOOL", "bool"))] /\
  parse (programa_de "p" [("x", ("INT", "int")); ("y", ("BOOL", "bool"))]) =
    (Ok tt,
     {| tokens := []; token_atual := None;
        ast := Some (mkNo "PROGRAMA"
                 [Some (mkNo "SECAO_VAR"
                          (map no_decl
                             [("x", ("INT", "int")); ("y", ("BOOL", "bool"))])
                          SemFolha);
                  Some (mkNo "DECLARACOES" [] SemFolha)]
                 (FolhaStr "p")) |}).
Proof.
  assert (H : Forall tipo_valido
                [("x", ("INT", "int")); ("y", ("BOOL", "bool"))])
    by (repeat constructor).
  split; [exact H |].
  exact (declarations_round_trip "p" _ H).
Defined.

(** The tokens of the witness are those of the source text. *)
Example programa_de_tokenize :
  programa_de "p" [("x", ("INT", "int")); ("y", ("BOOL", "bool"))] =
    tokenize "programa p { var x : int; var y : bool; }".
Proof. reflexivity. Qed.

(** ** Chains of operators *)

Lemma em_simples k :
  em k simples = true ->
  k = "IDENTIFIER" \/ k = "NUMBER" \/ k = "TRUE" \/ k = "FALSE".
Proof.
  unfold em, simples. simpl. rewrite !orb_true_iff, !String.eqb_eq.
  intros [H | [H | [H | [H | H]]]]; auto. discriminate H.
Qed.

Lemma fator_atomo rec (a : token) (l : list token) a0 :
  em (fst a) simples = true ->
  fator_ rec (de_entrada (a :: l) a0) = (Ok (no_atomo a), de_entrada l a0).
Proof.
  intro H. apply em_simples in H. destruct a as [k v]. simpl in H.
  destruct H as [-> | [-> | [-> | ->]]]; reflexivity.
Qed.

Lemma le_atomo_fator rec : le_atomo (fator_ rec) (fun _ => True).
Proof. intros a x l a0 Ha _. apply fator_atomo, Ha. Qed.

(** A level reads one operand when the token behind it is not its own
    operator and suits the level below. *)
Lemma le_atomo_nivel n op sub ok :
  le_atomo sub ok ->
  le_atomo (nivel (S n) op sub)
    (fun x => ok x /\ String.eqb (fst x) op = false).
Proof.
  intros Hs a x l a0 Ha [Hx Hop].
  rewrite (nivel_de _ _ _ _ _ _ (Hs a x l a0 Ha Hx)).
  apply laco_sai with (tok := x); [reflexivity | exact Hop].
Qed.

(** Behind an operand of the chain comes the next operator, or the token
    that follows the chain. *)
Lemma cadeia_frente pares (t : token) (resto : list token) :
  exists x l,
    cadeia pares ++ t :: resto = x :: l /\
    (x = t \/ exists p, In p pares /\ x = fst p).
Proof.
  destruct pares as [| p pares]; simpl.
  - exists t, resto. auto.
  - eexists _, _. split; [reflexivity |]. right. exists p. auto.
Qed.

Lemma laco_cadeia op sub ok a0 (t : token) (resto : list token) :
  le_atomo sub ok ->
  ok t -> String.eqb (fst t) op = false ->
  forall pares n acc,
    List.length pares < n ->
    cadeia_de op pares ->
    (forall p, In p pares -> ok (fst p)) ->
    laco n op sub acc (de_entrada (cadeia pares ++ t :: resto) a0) =
      (Ok (dobra acc pares), de_entrada (t :: resto) a0).
Proof.
  intros Hs Hokt Ht.
  induction pares as [| [[ko vo] a] pares IH]; intros n acc Hn Hc Hok;
    (destruct n as [| n]; [simpl in Hn; lia |]).
  - apply laco_sai with (tok := t); [reflexivity | exact Ht].
  - apply Forall_cons_iff in Hc. destruct Hc as [[Hk Ha] Hc'].
    simpl in Hk, Ha. subst ko.
    change (cadeia (((op, vo), a) :: pares) ++ t :: resto)
      with ((op, vo) :: a :: (cadeia pares ++ t :: resto)).
    destruct (cadeia_frente pares t resto) as (x & l & El & Hx).
    assert (Hokx : ok x).
    { destruct Hx as [-> | (p & Hp & ->)]; [exact Hokt |].
      apply Hok. right. exact Hp. }
    rewrite (laco_entra n op sub acc _ vo (no_atomo a)
               (de_entrada (cadeia pares ++ t :: resto) a0)).
    + apply IH; [simpl in Hn; lia | exact Hc' |].
      intros p Hp. apply Hok. right. exact Hp.
    + reflexivity.
    + change (avancar (de_entrada ((op, vo) :: a :: cadeia pares ++ t :: resto) a0))
        with (de_entrada (a :: cadeia pares ++ t :: resto) a0).
      rewrite El. apply Hs; assumption.
Qed.

Lemma em_operadores_falso k :
  em k operadores = false ->
  String.eqb k "MUL_OP" = false /\ String.eqb k "ADD_OP" = false /\
  String.eqb k "REL_OP" = false.
Proof.
  unfold em, operadores. simpl. intro H.
  apply orb_false_elim in H. destruct H as [H1 H].
  apply orb_false_elim in H. destruct H as [H2 H].
  apply orb_false_elim in H. destruct H as [H3 _]. auto.
Qed.

(** The chain at the level of its operators, with [n] turns allowed. *)
Lemma expr_cadeia k (a : token) pares (t : token) (resto : list token)
    a0 rec n :
  In k operadores ->
  em (fst a) simples = true ->
  cadeia_de k pares ->
  em (fst t) operadores = false ->
  List.length pares < S n ->
  expr_ (S n) rec (de_entrada (a :: cadeia pares ++ t :: resto) a0) =
    (Ok (dobra (no_atomo a) pares), de_entrada (t :: resto) a0).
Proof.
  intros Hk Ha Hc Ht Hn.
  apply em_operadores_falso in Ht. destruct Ht as (Hm & Had & Hr).
  assert (Hops : forall p, In p pares -> fst (fst p) = k).
  { intros p Hp. unfold cadeia_de in Hc. rewrite Forall_forall in Hc.
    apply (Hc p Hp). }
  destruct (cadeia_frente pares t resto) as (x & l & El & Hx).
  rewrite expr_nivel, expr_simples_nivel, termo_nivel.
  pose proof (le_atomo_fator rec) as Lf.
  pose proof (le_atomo_nivel n "MUL_OP" _ _ Lf) as Lt.
  pose proof (le_atomo_nivel n "ADD_OP" _ _ Lt) as Ls.
  destruct Hk as [<- | [<- | [<- | []]]].
  - (* multiplicative chain *)
    erewrite nivel_de;
      [apply laco_sai with (tok := t); [reflexivity | exact Hr] |].
    erewrite nivel_de;
      [apply laco_sai with (tok := t); [reflexivity | exact Had] |].
    erewrite nivel_de; [| apply fator_atomo, Ha].
    apply (laco_cadeia "MUL_OP" _ (fun _ => True)); auto.
  - (* additive chain *)
    erewrite nivel_de;
      [apply laco_sai with (tok := t); [reflexivity | exact Hr] |].
    erewrite nivel_de.
    + apply (laco_cadeia "ADD_OP" _ _ a0 t resto Lt); auto.
      intros p Hp. split; [exact I |]. rewrite (Hops p Hp). reflexivity.
    + rewrite El. apply Lt; [exact Ha |].
      destruct Hx as [-> | (p & Hp & ->)]; split; auto.
      rewrite (Hops p Hp). reflexivity.
  - (* relational chain *)
    erewrite nivel_de.
    + apply (laco_cadeia "REL_OP" _ _ a0 t resto Ls); auto.
      intros p Hp. rewrite (Hops p Hp). repeat split.
    + rewrite El. apply Ls; [exact Ha |].
      destruct Hx as [-> | (p & Hp & ->)]; [repeat split; assumption |].
      rewrite (Hops p Hp). repeat split.
Qed.

(** X8: operators of one tier fold to the left, whatever the length of
    the chain.  Take an operand of one token (identifier, number, [true]
    or [false]), then any number of operators of one kind ([MUL_OP],
    [ADD_OP] or [REL_OP]), each followed by such an operand, then a token
    that is not an operator.  Parsed as an expression this gives the
    left-nested tree [((a0 op1 a1) op2 a2) ...], and the parser stops in
    front of that token. *)
Theorem operator_chain_folds_left (k : string) (a : token)
    (pares : list (token * token)) (t : token) (resto : list token) :
  In k operadores ->
  em (fst a) simples = true ->
  cadeia_de k pares ->
  em (fst t) operadores = false ->
  parse_expr (a :: cadeia pares ++ t :: resto) =
    (Ok (dobra (no_atomo a) pares),
     {| tokens := resto; token_atual := Some t; ast := None |}).
Proof.
  intros Hk Ha Hc Ht. unfold parse_expr, executar_expr, fuel_for.
  cbn [init]. rewrite Nat.add_comm. cbn [Nat.add expr].
  change {| tokens := cadeia pares ++ t :: resto; token_atual := Some a;
            ast := None |}
    with (de_entrada (a :: cadeia pares ++ t :: resto) None).
  apply expr_cadeia with (k := k); auto.
  cbn [List.length]. rewrite length_app.
  assert (List.length pares <= List.length (cadeia pares)).
  { clear. induction pares as [| p pares IH]; simpl; lia. }
  lia.
Qed.

Lemma operator_chain_folds_left_witness :
  In "ADD_OP" operadores /\
  em (fst ("IDENTIFIER", "a")) simples = true /\
  cadeia_de "ADD_OP"
    [(("ADD_OP", "-"), ("NUMBER", "1")); (("ADD_OP", "+"), ("IDENTIFIER", "b"));
     (("ADD_OP", "-"), ("TRUE", "true"))] /\
  em (fst ("SEMICOLON", ";")) operadores = false /\
  parse_expr (tokenize "a - 1 + b - true;") =
    (Ok (operacao "-"
           (operacao "+"
              (operacao "-"
                 (Some (mkNo "IDENTIFICADOR" [] (FolhaStr "a")))
                 (numero "1"))
              (Some (mkNo "IDENTIFICADOR" [] (FolhaStr "b"))))
           (Some (mkNo "BOOLEANO" [] (FolhaStr "true")))),
     {| tokens := []; token_atual := Some ("SEMICOLON", ";"); ast := None |}).
Proof.
  assert (H1 : In "ADD_OP" operadores) by (right; left; reflexivity).
  assert (H2 : em (fst ("IDENTIFIER", "a")) simples = true) by reflexivity.
  assert (H3 : cadeia_de "ADD_OP"
    [(("ADD_OP", "-"), ("NUMBER", "1")); (("ADD_OP", "+"), ("IDENTIFIER", "b"));
     (("ADD_OP", "-"), ("TRUE", "true"))])
    by (repeat constructor).
  assert (H4 : em (fst ("SEMICOLON", ";")) operadores = false) by reflexivity.
  repeat (split; [assumption |]).
  exact (operator_chain_folds_left "ADD_OP" ("IDENTIFIER", "a") _
           ("SEMICOLON", ";") [] H1 H2 H3 H4).
Defined.

End ParserMore.

(* ================================================================== *)
(** * More on the tokenizer                                            *)
(* ================================================================== *)

Module LexerMore.
Import Regex Lexer LexerFacts LexerNotions.

(** ** Calling [analisar_tokens] again *)


(** ** Where a token comes from *)

Lemma finditer_from_In specs : forall s prev skip t,
  In t (finditer_from specs prev s skip) ->
  exists q len,
    snd q <> [] /\
    match_at specs q = Some (fst t, len) /\
    snd t = string_of_list_ascii (firstn len (snd q)).
Proof.
  induction s as [| c s IH]; intros prev skip t; simpl; [intros [] |].
  destruct skip as [| k]; [| apply IH].
  destruct (match_at specs (prev, c :: s)) as [[nome len] |] eqn:E;
    [| apply IH].
  intros [<- | H]; [| exact (IH _ _ _ H)].
  exists (prev, c :: s), len. simpl. repeat split; [discriminate | exact E].
Qed.

Lemma match_at_In specs : forall q nome len,
  match_at specs q = Some (nome, len) ->
  exists r q',
    In (nome, r) specs /\ hd_error (run r q) = Some q' /\
    len = List.length (snd q) - List.length (snd q').
Proof.
  induction specs as [| [nm r] specs IH]; intros q nome len; simpl.
  - discriminate.
  - destruct (run r q) as [| [o s'] l] eqn:E.
    + intro H. destruct (IH _ _ _ H) as (r' & q' & Hin & Hq).
      exists r', q'. auto.
    + intro H. injection H as <- <-.
      exists r, (o, s'). rewrite E. auto.
Qed.

Lemma hd_error_In {A} (l : list A) x : hd_error l = Some x -> In x l.
Proof. destruct l; simpl; [discriminate |]. intro H. injection H as <-. auto. Qed.

Lemma tokenize_In src t :
  In t (tokenize src) ->
  In t (finditer especificacoes_tokens src) /\ fst t <> "WHITESPACE".
Proof.
  rewrite tokenize_filter, filter_In. intros [H1 H2]. split; [exact H1 |].
  unfold emitido in H2. intro E. rewrite E in H2. discriminate H2.
Qed.

(** X10: every token comes from the table and has read something.  For
    every source text, the kind of each returned token is one of the
    names of the table other than [WHITESPACE], and its text is not
    empty. *)
Theorem token_kinds_and_text (src : string) (t : token) :
  In t (tokenize src) ->
  In (fst t) (map fst especificacoes_tokens) /\
  fst t <> "WHITESPACE" /\
  snd t <> "".
Proof.
  intro H. apply tokenize_In in H. destruct H as [H Hw].
  apply finditer_from_In in H. destruct H as (q & len & Hq & Hm & Ht).
  pose proof (match_at_table _ _ _ Hm) as Hlen.
  apply match_at_In in Hm. destruct Hm as (r & q' & Hin & _ & _).
  split; [| split; [exact Hw |]].
  - apply (in_map fst) in Hin. exact Hin.
  - rewrite Ht. destruct (snd q) as [| c s]; [contradiction |].
    destruct len as [| len]; [lia |]. discriminate.
Qed.

Lemma token_kinds_and_text_witness :
  In ("REL_OP", "<=") (tokenize "a <= 1") /\
  In (fst ("REL_OP", "<=")) (map fst especificacoes_tokens) /\
  fst ("REL_OP", "<=") <> "WHITESPACE" /\
  snd ("REL_OP", "<=") <> "".
Proof.
  assert (H : In ("REL_OP", "<=") (tokenize "a <= 1"))
    by (right; left; reflexivity).
  split; [exact H |].
  exact (token_kinds_and_text "a <= 1" ("REL_OP", "<=") H).
Defined.

(** ** What a match has read *)

Lemma ultimo_app d m1 m2 : ultimo d (m1 ++ m2) = ultimo (ultimo d m1) m2.
Proof. apply fold_left_app. Qed.

Lemma star_greedy_traco p : forall s prev q',
  In q' (star_greedy p prev s) ->
  exists m, s = m ++ snd q' /\ fst q' = ultimo prev m.
Proof.
  induction s as [| c s IH]; intros prev q'; simpl.
  - intros [<- | []]. exists []. auto.
  - destruct (p c).
    + rewrite in_app_iff. intros [H | [<- | []]].
      * destruct (IH _ _ H) as (m & -> & E). exists (c :: m). auto.
      * exists []. auto.
    + intros [<- | []]. exists []. auto.
Qed.

Lemma star_lazy_traco p : forall s prev q',
  In q' (star_lazy p prev s) ->
  exists m, s = m ++ snd q' /\ fst q' = ultimo prev m.
Proof.
  induction s as [| c s IH]; intros prev q'; simpl.
  - intros [<- | []]. exists []. auto.
  - destruct (p c).
    + intros [<- | H].
      * exists []. auto.
      * destruct (IH _ _ H) as (m & -> & E). exists (c :: m). auto.
    + intros [<- | []]. exists []. auto.
Qed.

(** A match ends at the position reached by reading its text. *)
Lemma run_traco r : forall q q',
  In q' (run r q) ->
  exists m, snd q = m ++ snd q' /\ fst q' = ultimo (fst q) m.
Proof.
  induction r as [p | p | p | r IH | r1 IH1 r2 IH2 | r1 IH1 r2 IH2 | |];
    intros q q'; simpl.
  - destruct (snd q) as [| c s'] eqn:E; [intros [] |].
    destruct (p c); [| intros []].
    intros [<- | []]. exists [c]. auto.
  - apply star_greedy_traco.
  - apply star_lazy_traco.
  - rewrite in_app_iff. intros [H | [<- | []]]; [apply IH, H |].
    exists []. auto.
  - rewrite in_flat_map. intros (q1 & H1 & H2).
    destruct (IH1 _ _ H1) as (m1 & E1 & F1).
    destruct (IH2 _ _ H2) as (m2 & E2 & F2).
    exists (m1 ++ m2). rewrite ultimo_app, <- F1, <- app_assoc, <- E2.
    auto.
  - rewrite in_app_iff. intros [H | H]; [apply IH1, H | apply IH2, H].
  - destruct (at_boundary q); [| intros []].
    intros [<- | []]. exists []. auto.
  - intros [<- | []]. exists []. auto.
Qed.

Lemma firstn_traco (m s s' : list ascii) :
  s = m ++ s' -> firstn (List.length s - List.length s') s = m.
Proof.
  intros ->. rewrite length_app.
  replace (List.length m + List.length s' - List.length s')
    with (List.length m + 0) by lia.
  rewrite firstn_app_2. simpl. apply app_nil_r.
Qed.

(** The text of a token is what its table entry has matched. *)
Lemma token_traco src t :
  In t (finditer especificacoes_tokens src) ->
  exists r q q' m,
    In (fst t, r) especificacoes_tokens /\
    hd_error (run r q) = Some q' /\
    match_at especificacoes_tokens q = Some (fst t, List.length m) /\
    snd q = m ++ snd q' /\ fst q' = ultimo (fst q) m /\
    snd t = string_of_list_ascii m.
Proof.
  intro H. apply finditer_from_In in H.
  destruct H as (q & len & _ & Hm & Ht).
  destruct (match_at_In _ _ _ _ Hm) as (r & q' & Hin & Hq & Hlen).
  destruct (run_traco _ _ _ (hd_error_In _ _ Hq)) as (m & Em & Fm).
  exists r, q, q', m.
  pose proof (firstn_traco _ _ _ Em) as Ef. rewrite <- Hlen in Ef.
  rewrite Ef in Ht. repeat split; auto.
  rewrite <- Ef at 1. rewrite Hm. f_equal. f_equal.
  rewrite Ef. rewrite Hlen, Em, length_app. lia.
Qed.

(** ** Keywords *)

Lemma run_seq r1 r2 q q' :
  In q' (run (Seq r1 r2) q) <->
  exists q1, In q1 (run r1 q) /\ In q' (run r2 q1).
Proof. simpl. apply in_flat_map. Qed.

Lemma run_wordb q q' :
  In q' (run WordB q) <-> q' = q /\ at_boundary q = true.
Proof.
  simpl. destruct (at_boundary q); simpl; split.
  - intros [<- | []]. auto.
  - intros [-> _]. auto.
  - intros [].
  - intros [_ H]. discriminate H.
Qed.

Lemma run_lit w : forall q q',
  In q' (run (Lit w) q) <->
  snd q = list_ascii_of_string w ++ snd q' /\
  fst q' = ultimo (fst q) (list_ascii_of_string w).
Proof.
  induction w as [| c w IH]; intros q q'.
  - simpl. split.
    + intros [<- | []]. auto.
    + intros [E F]. left. destruct q, q'. simpl in *. congruence.
  - change (Lit (String c w)) with (Seq (Chr c) (Lit w)).
    rewrite run_seq. split.
    + intros (q1 & H1 & H2). apply IH in H2. destruct H2 as [E2 F2].
      simpl in H1. destruct (snd q) as [| x s'] eqn:E; [destruct H1 |].
      destruct (Ascii.eqb c x) eqn:Ec; [| destruct H1].
      apply Ascii.eqb_eq in Ec. subst x.
      destruct H1 as [<- | []]. simpl in *. subst s'. auto.
    + intros [E F]. simpl in E, F.
      exists (Some c, list_ascii_of_string w ++ snd q'). split.
      * simpl. rewrite E, Ascii.eqb_refl. left. reflexivity.
      * apply IH. simpl. auto.
Qed.

(** A keyword pattern matches exactly its word between two boundaries. *)
Lemma run_kw w q q' :
  In q' (run (kw w) q) <->
  at_boundary q = true /\ at_boundary q' = true /\
  snd q = list_ascii_of_string w ++ snd q' /\
  fst q' = ultimo (fst q) (list_ascii_of_string w).
Proof.
  unfold kw. rewrite run_seq. split.
  - intros (q1 & H1 & H2). apply run_wordb in H1. destruct H1 as [-> Hb].
    apply run_seq in H2. destruct H2 as (q2 & H2 & H3).
    apply run_wordb in H3. destruct H3 as [-> Hb'].
    apply run_lit in H2. tauto.
  - intros (Hb & Hb' & E & F). exists q. split; [apply run_wordb; auto |].
    apply run_seq. exists q'. split; [apply run_lit; auto |].
    apply run_wordb. auto.
Qed.

(** The table starts with the keyword patterns, in the order of
    [palavras_chave]. *)
Lemma tabela_palavras :
  especificacoes_tokens =
    map (fun e => (fst e, kw (snd e))) palavras_chave
    ++ skipn 11 especificacoes_tokens.
Proof. reflexivity. Qed.

(** The names of the table are distinct, so a name has one pattern. *)
Lemma tabela_nomes : NoDup (map fst especificacoes_tokens).
Proof.
  unfold especificacoes_tokens. simpl.
  repeat (constructor;
          [simpl; intro H;
           repeat (destruct H as [H | H]; [discriminate H |]); exact H |]).
  constructor.
Qed.

Lemma tabela_unico {A B} (l : list (A * B)) :
  NoDup (map fst l) ->
  forall k v v', In (k, v) l -> In (k, v') l -> v = v'.
Proof.
  induction l as [| [k0 v0] l IH]; simpl; intros Hn k v v' H H'; [contradiction |].
  inversion Hn as [| ? ? Hk Hn']; subst.
  destruct H as [H | H], H' as [H' | H'].
  - congruence.
  - injection H as -> ->. exfalso. apply Hk.
    apply (in_map fst) in H'. exact H'.
  - injection H' as -> ->. exfalso. apply Hk.
    apply (in_map fst) in H. exact H.
  - apply (IH Hn' k); assumption.
Qed.

Lemma tabela_kw kind w r :
  In (kind, w) palavras_chave ->
  In (kind, r) especificacoes_tokens ->
  r = kw w.
Proof.
  intros Hk Hr. apply (tabela_unico _ tabela_nomes kind); [exact Hr |].
  rewrite tabela_palavras. apply in_or_app. left.
  apply (in_map (fun e => (fst e, kw (snd e)))) in Hk. exact Hk.
Qed.

(** X11: a keyword token carries the spelling of its keyword.  For every
    source text and each of the eleven keyword kinds, the text of a
    returned token of that kind is exactly the keyword of the table
    ([PROGRAM] tokens read ["programa"], [VAR] tokens ["var"], and so
    on). *)
Theorem keyword_token_spelling (src : string) (t : token) (w : string) :
  In t (tokenize src) ->
  In (fst t, w) palavras_chave ->
  snd t = w.
Proof.
  intros Ht Hk. apply tokenize_In in Ht. destruct Ht as [Ht _].
  apply token_traco in Ht.
  destruct Ht as (r & q & q' & m & Hin & Hq & _ & Em & _ & Et).
  rewrite (tabela_kw _ _ _ Hk Hin) in Hq.
  apply hd_error_In, run_kw in Hq. destruct Hq as (_ & _ & E & _).
  rewrite Em in E. apply app_inv_tail in E. subst m.
  rewrite Et. apply string_of_list_ascii_of_string.
Qed.

Lemma keyword_token_spelling_witness :
  In ("WHILE", "while") (tokenize "while (x) { }") /\
  In (fst ("WHILE", "while"), "while") palavras_chave /\
  snd ("WHILE", "while") = "while".
Proof.
  assert (H1 : In ("WHILE", "while") (tokenize "while (x) { }"))
    by (left; reflexivity).
  assert (H2 : In (fst ("WHILE", "while"), "while") palavras_chave)
    by (do 7 right; left; reflexivity).
  repeat (split; [assumption |]).
  exact (keyword_token_spelling "while (x) { }" ("WHILE", "while") "while"
           H1 H2).
Defined.

(** ** Identifiers *)

(** An entry of the table is tried only when those before it fail. *)
Lemma match_at_antes pre : forall pos q nome len,
  match_at (pre ++ pos) q = Some (nome, len) ->
  ~ In nome (map fst pre) ->
  Forall (fun e => run (snd e) q = []) pre.
Proof.
  induction pre as [| [nm r] pre IH]; intros pos q nome len; simpl.
  - constructor.
  - destruct (run r q) as [| [o s'] l] eqn:E.
    + intros H Hn. constructor; [exact E |].
      apply (IH _ _ _ _ H). tauto.
    + intros H Hn. injection H as <- _. tauto.
Qed.

Lemma tabela_identifier r :
  In ("IDENTIFIER", r) especificacoes_tokens ->
  r = Seq WordB (Seq (Cls ident_start) (Seq (Star ident_char) WordB)).
Proof.
  intro H. apply (tabela_unico _ tabela_nomes "IDENTIFIER"); [exact H |].
  unfold especificacoes_tokens. do 11 right. left. reflexivity.
Qed.

(** X12: an identifier is never a keyword.  For every source text, the
    text of a returned [IDENTIFIER] token is none of the eleven keywords
    of the table: where a keyword stands as a whole word, its own pattern
    comes first and wins. *)
Theorem identifier_is_no_keyword (src : string) (t : token) :
  In t (tokenize src) ->
  fst t = "IDENTIFIER" ->
  ~ In (snd t) (map snd palavras_chave).
Proof.
  intros Ht Hk Hw. apply tokenize_In in Ht. destruct Ht as [Ht _].
  apply token_traco in Ht.
  destruct Ht as (r & q & q' & m & Hin & Hq & Hm & Em & Fm & Et).
  rewrite Hk in Hin, Hm. apply tabela_identifier in Hin. subst r.
  apply hd_error_In in Hq.
  apply run_seq in Hq. destruct Hq as (q1 & H1 & Hq).
  apply run_wordb in H1. destruct H1 as [-> Hb].
  apply run_seq in Hq. destruct Hq as (q2 & _ & Hq).
  apply run_seq in Hq. destruct Hq as (q3 & _ & Hq).
  apply run_wordb in Hq. destruct Hq as [-> Hb'].
  apply in_map_iff in Hw. destruct Hw as ([kind w] & Ew & Hw).
  simpl in Ew. subst w.
  assert (Hrun : In q3 (run (kw (snd t)) q)).
  { apply run_kw. rewrite Et.
    rewrite list_ascii_of_string_of_list_ascii. auto. }
  rewrite tabela_palavras in Hm.
  apply match_at_antes in Hm.
  - rewrite Forall_forall in Hm.
    apply (in_map (fun e => (fst e, kw (snd e)))) in Hw.
    apply Hm in Hw. cbn [fst snd] in Hw. rewrite Hw in Hrun. destruct Hrun.
  - simpl. intro H.
    repeat (destruct H as [H | H]; [discriminate H |]). exact H.
Qed.

Lemma identifier_is_no_keyword_witness :
  In ("IDENTIFIER", "iffy") (tokenize "if iffy") /\
  fst ("IDENTIFIER", "iffy") = "IDENTIFIER" /\
  ~ In (snd ("IDENTIFIER", "iffy")) (map snd palavras_chave).
Proof.
  assert (H1 : In ("IDENTIFIER", "iffy") (tokenize "if iffy"))
    by (right; left; reflexivity).
  assert (H2 : fst ("IDENTIFIER", "iffy") = "IDENTIFIER") by reflexivity.
  repeat (split; [assumption |]).
  exact (identifier_is_no_keyword "if iffy" ("IDENTIFIER", "iffy") H1 H2).
Defined.

(** ** Source order *)

Lemma sub_refl {A} (l : list A) : subsequencia l l.
Proof. induction l; constructor; assumption. Qed.

Lemma sub_app {A} (p l1 l2 : list A) :
  subsequencia l1 l2 -> subsequencia (p ++ l1) (p ++ l2).
Proof. intro H. induction p; simpl; [exact H | constructor; assumption]. Qed.

Lemma sub_skipn {A} (l1 : list A) : forall k l2,
  subsequencia l1 (skipn k l2) -> subsequencia l1 l2.
Proof.
  induction k as [| k IH]; intros l2; simpl; [auto |].
  destruct l2 as [| x l2]; [auto |].
  intro H. constructor. apply IH, H.
Qed.

Lemma finditer_from_sub specs : forall s prev skip,
  subsequencia
    (textos (filter emitido (finditer_from specs prev s skip)))
    (skipn skip s).
Proof.
  induction s as [| c s IH]; intros prev skip.
  - destruct skip; constructor.
  - destruct skip as [| k]; [| apply IH]. cbn [finditer_from skipn].
    destruct (match_at specs (prev, c :: s)) as [[nome len] |].
    + cbn [filter]. destruct (emitido _).
      * unfold textos. cbn [flat_map snd].
        rewrite list_ascii_of_string_of_list_ascii.
        destruct len as [| len]; cbn [firstn app].
        -- constructor. apply (IH (Some c) 0).
        -- apply sub_toma. replace (S len - 1) with len by lia.
           pose proof (sub_app (firstn len s) _ _ (IH (Some c) len)) as H.
           rewrite firstn_skipn in H. exact H.
      * constructor. apply (sub_skipn _ (len - 1)). apply IH.
    + constructor. apply (IH (Some c) 0).
Qed.

(** The texts of the returned tokens, written one after the other, are
    the source text with some characters left out. *)
Lemma token_texts_in_source_order (src : string) :
  subsequencia (textos (tokenize src)) (list_ascii_of_string src).
Proof.
  rewrite tokenize_filter. unfold finditer.
  apply (finditer_from_sub especificacoes_tokens
           (list_ascii_of_string src) None 0).
Qed.

End LexerMore.

(* ================================================================== *)
(** * Printing a tree                                                  *)
(* ================================================================== *)

Module ReprFacts.
Import Lexer Parser Repr ParserNotions ParserFacts ParserMore.







(** The example program of the repository prints. *)
Example exemplo_imprime py_repr :
  exists texto,
    option_map (fun n => repr py_repr n 0)
      (ast (snd (parse (tokenize codigo_exemplo)))) = Some (Ok texto).
Proof. eexists. vm_compute. reflexivity. Qed.

(** A program with an [if] without [else] is accepted and does not
    print. *)
Example se_sem_senao_nao_imprime py_repr :
  fst (parse (tokenize "programa p { if (x) { print(x); } }")) = Ok tt /\
  option_map (fun n => repr py_repr n 0)
    (ast (snd (parse (tokenize "programa p { if (x) { print(x); } }")))) =
  Some (Raise TypeError).
Proof. split; reflexivity. Qed.




End ReprFacts.

(* ================================================================== *)
(** * The scan, piece by piece                                         *)
(* ================================================================== *)

Module LexerScan.
Import Regex Lexer LexerFacts LexerNotions LexerMore.

Lemma finditer_from_salta specs : forall s k prev,
  k <= List.length s ->
  finditer_from specs prev s k =
    finditer_from specs (ultimo prev (firstn k s)) (skipn k s) 0.
Proof.
  induction s as [| c s IH]; intros k prev Hk.
  - destruct k; [reflexivity | simpl in Hk; lia].
  - destruct k as [| k]; [reflexivity |].
    cbn [finditer_from firstn skipn]. rewrite IH by (simpl in Hk; lia).
    reflexivity.
Qed.

Lemma match_at_le specs q nome len :
  match_at specs q = Some (nome, len) -> len <= List.length (snd q).
Proof.
  intro H. apply match_at_In in H. destruct H as (r & q' & _ & _ & ->). lia.
Qed.

(** One match, seen as a piece of the text. *)
Lemma varredura_casa prev s nome len toks :
  match_at especificacoes_tokens (prev, s) = Some (nome, len) ->
  varredura (ultimo prev (firstn len s)) (skipn len s) toks ->
  varredura prev s
    (if emitido (nome, string_of_list_ascii (firstn len s))
     then (nome, string_of_list_ascii (firstn len s)) :: toks
     else toks).
Proof.
  intros Hm Hv.
  pose proof (match_at_table _ _ _ Hm) as H1.
  pose proof (match_at_le _ _ _ _ Hm) as H2. simpl in H2.
  assert (L : List.length (firstn len s) = len)
    by (apply firstn_length_le; exact H2).
  assert (E : firstn len s ++ skipn len s = s) by apply firstn_skipn.
  remember (firstn len s) as m eqn:Em. remember (skipn len s) as cauda.
  clear Em Heqcauda. subst s len.
  assert (Hne : m <> []) by (destruct m; [simpl in H1; lia | discriminate]).
  unfold emitido. simpl fst.
  destruct (String.eqb_spec nome "WHITESPACE") as [-> | Hn]; simpl.
  - apply var_branco; assumption.
  - apply var_token; assumption.
Qed.

Lemma varredura_finditer : forall n s prev,
  List.length s <= n ->
  varredura prev s
    (filter emitido (finditer_from especificacoes_tokens prev s 0)).
Proof.
  induction n as [| n IH]; intros s prev Hn.
  - destruct s; [constructor | simpl in Hn; lia].
  - destruct s as [| c s]; [constructor |]. cbn [finditer_from].
    destruct (match_at especificacoes_tokens (prev, c :: s))
      as [[nome len] |] eqn:Hm.
    + pose proof (match_at_table _ _ _ Hm) as H1.
      pose proof (match_at_le _ _ _ _ Hm) as H2. simpl in H2.
      cbn [filter].
      apply (varredura_casa prev (c :: s) nome len); [exact Hm |].
      destruct len as [| len]; [lia |].
      replace (S len - 1) with len by lia.
      rewrite finditer_from_salta by lia.
      cbn [firstn skipn]. apply IH.
      rewrite length_skipn. simpl in Hn. lia.
    + apply var_salto; [exact Hm |]. apply IH. simpl in Hn. lia.
Qed.

(** ** A character that no pattern accepts *)

Lemma inerte_fatos c :
  inerte c = true ->
  is_word c = false /\ Ascii.eqb c "/" = false /\ Ascii.eqb c "*" = false /\
  tabela_cega c = true.
Proof.
  destruct c as [[|] [|] [|] [|] [|] [|] [|] [|]]; vm_compute;
    intro H; first [discriminate H | repeat split].
Qed.

Lemma flat_map_map_l {A B C} (f : B -> list C) (g : A -> B) l :
  flat_map f (map g l) = flat_map (fun x => f (g x)) l.
Proof. induction l as [| x l IH]; simpl; congruence. Qed.

Lemma map_flat_map_l {A B C} (f : A -> list B) (g : B -> C) l :
  map g (flat_map f l) = flat_map (fun x => map g (f x)) l.
Proof.
  induction l as [| x l IH]; simpl; [reflexivity |].
  rewrite map_app, IH. reflexivity.
Qed.

Section Cego.
Variable c : ascii.
Variable cauda : list ascii.
Hypothesis c_nao_palavra : is_word c = false.

Lemma star_greedy_cego p :
  p c = false ->
  forall s prev,
    star_greedy p prev (s ++ c :: cauda) =
      map (alonga (c :: cauda)) (star_greedy p prev s).
Proof.
  intro Hp. induction s as [| x s IH]; intro prev; simpl.
  - rewrite Hp. reflexivity.
  - destruct (p x); [| reflexivity].
    rewrite IH, map_app. reflexivity.
Qed.

Lemma star_lazy_cego p :
  p c = false ->
  forall s prev,
    star_lazy p prev (s ++ c :: cauda) =
      map (alonga (c :: cauda)) (star_lazy p prev s).
Proof.
  intro Hp. induction s as [| x s IH]; intro prev; simpl.
  - rewrite Hp. reflexivity.
  - destruct (p x); [| reflexivity].
    rewrite IH. reflexivity.
Qed.

Lemma at_boundary_alonga q :
  at_boundary (alonga (c :: cauda) q) = at_boundary q.
Proof.
  destruct q as [prev s]. unfold at_boundary, alonga. simpl.
  destruct s; simpl; [rewrite c_nao_palavra |]; reflexivity.
Qed.

(** A pattern blind to [c] matches in front of [c] as it does at the end
    of the text. *)
Lemma run_cego r :
  cego c r = true ->
  forall q,
    run r (alonga (c :: cauda) q) = map (alonga (c :: cauda)) (run r q).
Proof.
  induction r as [p | p | p | r IH | r1 IH1 r2 IH2 | r1 IH1 r2 IH2 | |];
    simpl cego; intros Hc q.
  - apply negb_true_iff in Hc. destruct q as [prev [| x s]]; simpl.
    + rewrite Hc. reflexivity.
    + destruct (p x); reflexivity.
  - apply negb_true_iff in Hc. destruct q as [prev s].
    apply (star_greedy_cego p Hc).
  - apply negb_true_iff in Hc. destruct q as [prev s].
    apply (star_lazy_cego p Hc).
  - cbn [run]. rewrite (IH Hc), map_app. reflexivity.
  - apply andb_true_iff in Hc. destruct Hc as [H1 H2]. cbn [run].
    rewrite (IH1 H1), flat_map_map_l, map_flat_map_l.
    apply flat_map_ext. intro q1. apply (IH2 H2).
  - apply andb_true_iff in Hc. destruct Hc as [H1 H2]. cbn [run].
    rewrite (IH1 H1), (IH2 H2), map_app. reflexivity.
  - cbn [run]. rewrite at_boundary_alonga.
    destruct (at_boundary q); reflexivity.
  - reflexivity.
Qed.
End Cego.

Lemma sem_elementos {A} (l : list A) : (forall x, ~ In x l) -> l = [].
Proof.
  destruct l as [| x l]; [reflexivity |]. intro H.
  exfalso. apply (H x). left. reflexivity.
Qed.

Lemma tabela_comentario r :
  In ("MULTILINE_COMMENT", r) especificacoes_tokens ->
  r = Seq (Lit "/*") (Seq (StarLazy not_newline) (Lit "*/")).
Proof.
  intro H. apply (tabela_unico _ tabela_nomes "MULTILINE_COMMENT");
    [exact H |].
  unfold especificacoes_tokens. do 17 right. left. reflexivity.
Qed.

(** The comment pattern needs ["/*"] at the scan point. *)
Lemma run_comentario q :
  abre (snd q) = false ->
  run (Seq (Lit "/*") (Seq (StarLazy not_newline) (Lit "*/"))) q = [].
Proof.
  intro H. apply sem_elementos. intros q' Hq.
  apply run_seq in Hq. destruct Hq as (q1 & H1 & _).
  apply run_lit in H1. destruct H1 as [E _].
  rewrite E in H. discriminate H.
Qed.

Lemma abre_alonga c cauda s :
  Ascii.eqb c "/" = false -> Ascii.eqb c "*" = false ->
  abre s = false ->
  abre (s ++ c :: cauda) = false.
Proof.
  intros H1 H2 Hs. destruct s as [| x [| d s]]; simpl in *.
  - rewrite H1. destruct cauda; reflexivity.
  - rewrite H2. apply andb_false_r.
  - exact Hs.
Qed.

Lemma match_at_alonga cauda specs prev s :
  (forall e, In e specs ->
     run (snd e) (prev, s ++ cauda) =
       map (alonga cauda) (run (snd e) (prev, s))) ->
  match_at specs (prev, s ++ cauda) = match_at specs (prev, s).
Proof.
  induction specs as [| [nm r] specs IH]; intro H; [reflexivity |].
  cbn [match_at].
  pose proof (H (nm, r) (or_introl eq_refl)) as Hr. cbn [snd] in Hr.
  rewrite Hr.
  destruct (run r (prev, s)) as [| [o s'] l].
  - apply IH. intros e He. apply H. right. exact He.
  - cbn [map alonga fst snd]. rewrite !length_app.
    do 2 f_equal. lia.
Qed.

(** In front of an inert character, and with no ["/*"] at the scan
    point, the table matches as it does at the end of the text. *)
Lemma match_at_inerte c cauda prev s :
  inerte c = true ->
  abre s = false ->
  match_at especificacoes_tokens (prev, s ++ c :: cauda) =
    match_at especificacoes_tokens (prev, s).
Proof.
  intros Hi Hs. apply inerte_fatos in Hi.
  destruct Hi as (Hw & H1 & H2 & Ht).
  apply match_at_alonga. intros [nm r] He. cbn [snd].
  unfold tabela_cega in Ht. rewrite forallb_forall in Ht.
  specialize (Ht _ He). cbn [fst snd] in Ht.
  apply orb_true_iff in Ht. destruct Ht as [Hn | Hc].
  - apply String.eqb_eq in Hn. subst nm.
    apply tabela_comentario in He. subst r.
    rewrite !run_comentario; [reflexivity | exact Hs |].
    apply abre_alonga; assumption.
  - apply (run_cego c cauda Hw r Hc (prev, s)).
Qed.

Lemma match_at_vazio prev : match_at especificacoes_tokens (prev, []) = None.
Proof.
  destruct (match_at especificacoes_tokens (prev, [])) as [[nome len] |] eqn:E;
    [| reflexivity].
  pose proof (match_at_table _ _ _ E). apply match_at_le in E. simpl in E. lia.
Qed.

Lemma finditer_from_inerte c cauda :
  inerte c = true ->
  forall s prev skip,
    sem_abre s = true ->
    skip <= List.length s ->
    finditer_from especificacoes_tokens prev (s ++ c :: cauda) skip =
      finditer_from especificacoes_tokens prev s skip
      ++ finditer_from especificacoes_tokens (Some c) cauda 0.
Proof.
  intro Hi. induction s as [| x s IH]; intros prev skip Hs Hk.
  - destruct skip; [| simpl in Hk; lia].
    cbn [app finditer_from].
    change (c :: cauda) with ([] ++ c :: cauda) at 1.
    rewrite (match_at_inerte c cauda prev [] Hi eq_refl), match_at_vazio.
    reflexivity.
  - cbn [sem_abre] in Hs. apply andb_true_iff in Hs.
    destruct Hs as [Ha Hs]. apply negb_true_iff in Ha.
    destruct skip as [| k].
    + change ((x :: s) ++ c :: cauda) with (x :: (s ++ c :: cauda)).
      cbn [finditer_from].
      change (x :: s ++ c :: cauda) with ((x :: s) ++ c :: cauda).
      rewrite (match_at_inerte c cauda prev (x :: s) Hi Ha).
      destruct (match_at especificacoes_tokens (prev, x :: s))
        as [[nome len] |] eqn:Hm.
      * pose proof (match_at_le _ _ _ _ Hm) as Hl. simpl in Hl.
        rewrite firstn_app.
        replace (len - List.length (x :: s)) with 0 by (simpl; lia).
        cbn [firstn]. rewrite app_nil_r.
        rewrite IH by (try assumption; lia). reflexivity.
      * rewrite IH by (try assumption; lia). reflexivity.
    + change ((x :: s) ++ c :: cauda) with (x :: (s ++ c :: cauda)).
      cbn [finditer_from]. apply IH; [exact Hs | simpl in Hk; lia].
Qed.

(** ** The character before the scan point *)

Lemma mesma_refl q : mesma q q.
Proof. split; reflexivity. Qed.

Lemma Forall2_mesma_refl l : Forall2 mesma l l.
Proof. induction l; constructor; [apply mesma_refl | assumption]. Qed.

Lemma Forall2_flat_map {A B} (R : A -> A -> Prop) (S : B -> B -> Prop)
    (f : A -> list B) l l' :
  Forall2 R l l' ->
  (forall x y, R x y -> Forall2 S (f x) (f y)) ->
  Forall2 S (flat_map f l) (flat_map f l').
Proof.
  intros H Hf. induction H as [| x y l l' Hxy _ IH]; simpl.
  - constructor.
  - apply Forall2_app; [apply Hf, Hxy | exact IH].
Qed.

Lemma run_mesma r : forall q q',
  mesma q q' -> Forall2 mesma (run r q) (run r q').
Proof.
  induction r as [p | p | p | r IH | r1 IH1 r2 IH2 | r1 IH1 r2 IH2 | |];
    intros [prev s] [prev' s'] [Es Ew]; simpl in Es, Ew; subst s'.
  - simpl. apply Forall2_mesma_refl.
  - simpl. destruct s as [| x s]; simpl.
    + repeat constructor; assumption.
    + destruct (p x).
      * apply Forall2_app; [apply Forall2_mesma_refl |].
        repeat constructor; assumption.
      * repeat constructor; assumption.
  - simpl. destruct s as [| x s]; simpl.
    + repeat constructor; assumption.
    + destruct (p x).
      * constructor; [split; assumption || reflexivity |].
        apply Forall2_mesma_refl.
      * repeat constructor; assumption.
  - cbn [run]. apply Forall2_app.
    + apply IH. split; assumption || reflexivity.
    + repeat constructor; assumption.
  - cbn [run]. apply (Forall2_flat_map mesma mesma).
    + apply IH1. split; assumption || reflexivity.
    + exact IH2.
  - cbn [run]. apply Forall2_app;
      [apply IH1 | apply IH2]; split; assumption || reflexivity.
  - cbn [run]. unfold at_boundary. cbn [fst snd]. rewrite Ew.
    destruct (xorb _ _); repeat constructor; assumption.
  - repeat constructor; assumption.
Qed.

Lemma match_at_mesma specs q q' :
  mesma q q' -> match_at specs q = match_at specs q'.
Proof.
  intro H. induction specs as [| [nm r] specs IH]; [reflexivity |].
  cbn [match_at]. pose proof (run_mesma r _ _ H) as Hr.
  destruct H as [Es _].
  destruct Hr as [| [o s1] [o' s1'] l l' [E1 _] _]; [exact IH |].
  simpl in E1. subst s1'. rewrite Es. reflexivity.
Qed.

(** A character that is not a word character stands before the text as
    the beginning of the text does. *)
Lemma finditer_from_mesma specs prev prev' s skip :
  word_opt prev = word_opt prev' ->
  finditer_from specs prev s skip = finditer_from specs prev' s skip.
Proof.
  intro H. destruct s as [| x s]; [reflexivity |].
  destruct skip as [| k]; [| reflexivity].
  cbn [finditer_from].
  rewrite (match_at_mesma specs (prev, x :: s) (prev', x :: s));
    [reflexivity |].
  split; [reflexivity | exact H].
Qed.

Lemma list_ascii_app s1 s2 :
  list_ascii_of_string (s1 ++ s2)%string =
    list_ascii_of_string s1 ++ list_ascii_of_string s2.
Proof. induction s1 as [| x s1 IH]; simpl; congruence. Qed.

(** The tokens of a text with an inert character in it. *)
Lemma tokenize_inerte s1 c s2 :
  inerte c = true ->
  sem_abre (list_ascii_of_string s1) = true ->
  tokenize (s1 ++ String c s2) = tokenize s1 ++ tokenize s2.
Proof.
  intros Hi Hs. rewrite !tokenize_filter. unfold finditer.
  rewrite list_ascii_app. cbn [list_ascii_of_string].
  rewrite (finditer_from_inerte c _ Hi _ None 0 Hs) by lia.
  rewrite filter_app. f_equal. f_equal.
  apply finditer_from_mesma. simpl.
  apply inerte_fatos in Hi. destruct Hi as [Hw _]. exact Hw.
Qed.

(** ** The scan is a function of the text *)

Lemma app_mesmo_comprimento {A} (m m' s s' : list A) :
  m ++ s = m' ++ s' -> List.length m = List.length m' -> m = m' /\ s = s'.
Proof.
  revert m'. induction m as [| x m IH]; intros [| y m'] E L;
    try discriminate L.
  - split; [reflexivity | exact E].
  - simpl in E, L. injection E as -> E. injection L as L.
    destruct (IH _ E L) as [-> ->]. split; reflexivity.
Qed.

Lemma casa_unica prev m s m' s' nome nome' :
  m' ++ s' = m ++ s ->
  match_at especificacoes_tokens (prev, m ++ s) = Some (nome, List.length m) ->
  match_at especificacoes_tokens (prev, m' ++ s') =
    Some (nome', List.length m') ->
  nome' = nome /\ m' = m /\ s' = s.
Proof.
  intros E H H'. rewrite E, H in H'. injection H' as En El.
  symmetry in El. destruct (app_mesmo_comprimento _ _ _ _ E El) as [-> ->].
  auto.
Qed.

Ltac outra_varredura IH :=
  match goal with
  | E : _ ++ _ = [] |- _ =>
      apply app_eq_nil in E; destruct E; subst; simpl in *; congruence
  | E : [] = _ ++ _ |- _ =>
      symmetry in E; apply app_eq_nil in E; destruct E; subst; simpl in *;
      congruence
  | E : ?a = ?b, H1 : match_at _ (_, ?b) = None,
    H2 : match_at _ (_, ?a) = Some _ |- _ =>
      rewrite E, H1 in H2; discriminate H2
  | E : ?a = ?b, H1 : match_at _ (_, ?b) = Some _,
    H2 : match_at _ (_, ?a) = None |- _ =>
      rewrite E, H1 in H2; discriminate H2
  | E : ?m' ++ ?s' = ?m ++ ?s, H1 : match_at _ (_, ?m ++ ?s) = Some _,
    H2 : match_at _ (_, ?m' ++ ?s') = Some _ |- _ =>
      destruct (casa_unica _ _ _ _ _ _ _ E H1 H2) as (? & ? & ?); subst;
      first [congruence | f_equal; apply IH; assumption]
  | _ => first [reflexivity | apply IH; assumption]
  end.

(** A text is cut in one way only. *)
Lemma varredura_unica prev s toks :
  varredura prev s toks ->
  forall toks', varredura prev s toks' -> toks' = toks.
Proof.
  induction 1 as [prev | prev c s toks Hm _ IH
                 | prev m s toks Hne Hm _ IH
                 | prev m s nome toks Hne Hn Hm _ IH];
    intros toks' H'; inversion H'; subst; outra_varredura IH.
Qed.

(** X13: the tokens are the pieces that the scan cuts out of the source.
    For every source text, the scan goes through the text from left to
    right; at each position it reaches, either no pattern matches and
    exactly one character is left out, or the first pattern of the table
    that matches takes a non-empty piece of the text, which is left out
    when its kind is [WHITESPACE] and otherwise becomes the next token,
    with that kind and that piece as its text; the scan goes on right
    behind the piece.  The returned sequence is made of these tokens, in
    this order, and it is the only sequence cut out in this way; its
    texts, written one after the other, are the source text with the
    left-out characters removed. *)
Theorem tokens_are_the_scanned_pieces (src : string) :
  varredura None (list_ascii_of_string src) (tokenize src) /\
  (forall toks,
     varredura None (list_ascii_of_string src) toks -> toks = tokenize src) /\
  subsequencia (textos (tokenize src)) (list_ascii_of_string src).
Proof.
  assert (H : varredura None (list_ascii_of_string src) (tokenize src)).
  { rewrite tokenize_filter. unfold finditer.
    apply (varredura_finditer (List.length (list_ascii_of_string src))).
    apply le_n. }
  split; [exact H |]. split.
  - intros toks Ht. exact (varredura_unica _ _ _ H _ Ht).
  - apply token_texts_in_source_order.
Qed.

Lemma tokens_are_the_scanned_pieces_witness :
  varredura None (list_ascii_of_string "x = 1; @") (tokenize "x = 1; @") /\
  (forall toks,
     varredura None (list_ascii_of_string "x = 1; @") toks ->
     toks = tokenize "x = 1; @") /\
  subsequencia (textos (tokenize "x = 1; @"))
    (list_ascii_of_string "x = 1; @").
Proof. exact (tokens_are_the_scanned_pieces "x = 1; @"). Defined.

Lemma posicao_meio (l1 : list ascii) c l2 :
  skipn (List.length l1) (l1 ++ c :: l2) = c :: l2.
Proof. induction l1 as [| x l1 IH]; simpl; [reflexivity | exact IH]. Qed.

Lemma sem_padrao_inerte s1 c s2 :
  inerte c = true ->
  sem_padrao (s1 ++ String c s2) (String.length s1).
Proof.
  intro Hi. split.
  - rewrite <- !length_list_ascii, list_ascii_app, length_app. simpl. lia.
  - unfold posicao. rewrite list_ascii_app. cbn [list_ascii_of_string].
    rewrite <- length_list_ascii, posicao_meio.
    match goal with |- match_at _ (?prev, _) = _ =>
      change (c :: list_ascii_of_string s2)
        with ([] ++ c :: list_ascii_of_string s2);
      rewrite (match_at_inerte c _ prev [] Hi eq_refl)
    end.
    apply match_at_vazio.
Qed.

End LexerScan.

(* ================================================================== *)
(** * A character that matches no pattern                              *)
(* ================================================================== *)

Section UnmatchedCharacter.
Import Regex Lexer LexerNotions LexerScan.

(** C1, amended: a character that no pattern of the table accepts does
    not make the tokenizer fail.  Let [c] be a character that is no word
    character, no whitespace and none of the punctuation characters of the
    table (["@"], for example), standing in a source text after a text
    [s1] that has no ["/*"] in it, and before any text [s2].  Then no
    pattern matches at the position of [c], and the tokenizer returns the
    tokens of [s1] followed by the tokens of [s2]: the character is left
    out and nothing is reported. *)
Theorem C1_unmatched_character_dropped (s1 : string) (c : ascii)
    (s2 : string) :
  inerte c = true ->
  sem_abre (list_ascii_of_string s1) = true ->
  sem_padrao (s1 ++ String c s2) (String.length s1) /\
  tokenizer (s1 ++ String c s2) = Returns (tokenize s1 ++ tokenize s2).
Proof.
  intros Hi Hs. split.
  - apply sem_padrao_inerte, Hi.
  - unfold tokenizer. f_equal. apply tokenize_inerte; assumption.
Qed.

Lemma C1_unmatched_character_dropped_witness :
  inerte "@" = true /\
  sem_abre (list_ascii_of_string "x = 1 ") = true /\
  sem_padrao ("x = 1 " ++ String "@" " y") (String.length "x = 1 ") /\
  tokenizer ("x = 1 " ++ String "@" " y") =
    Returns (tokenize "x = 1 " ++ tokenize " y").
Proof.
  split; [reflexivity |]. split; [reflexivity |].
  apply (C1_unmatched_character_dropped "x = 1 " "@" " y");
    reflexivity.
Defined.

End UnmatchedCharacter.
